(** * A bounded LRU store with per-entry expiration

    Shallow embedding of the [lru] type of package [cache] (the store behind
    the templ cache component) and of the [Component] control functions that
    act on it, followed by the properties of the store.

    Conventions of the embedding:
    - Go's [int] is the 64-bit signed integer of the usual targets; it is a
      [Z] kept in range by [wrap], which is applied wherever the source
      adds or subtracts.
    - [time.Time] is an instant in nanoseconds, a [Z]; [time.Duration] is a
      number of nanoseconds.  [t.Add(d)] is [t + d], [t.Before(u)] is
      [t < u] and [t.After(u)] is [u < t].  Every [time.Now()] of the source
      is an explicit argument of the function that reads the clock.
    - [container/list] is a Rocq list, front first.  The Go map sends a key
      to the list node that holds its entry; entries are never mutated after
      their creation, so the map is a [gmap] from keys to entries and the
      node of an entry is its occurrence in the list.
    - every method runs under the mutex of the store, so a method is a
      function from the state before to the state after. *)

From Stdlib Require Import ZArith Lia Ascii.
From stdpp Require Import gmap strings list fin_maps.

Local Open Scope Z_scope.

(** ** Machine integers *)

Definition int_min : Z := - 2 ^ 63.
Definition int_max : Z := 2 ^ 63 - 1.

(** Two's complement wrap-around of Go's [int]. *)
Definition wrap (z : Z) : Z := (z + 2 ^ 63) mod 2 ^ 64 - 2 ^ 63.

(** [24 * time.Hour], in nanoseconds. *)
Definition hours24 : Z := 24 * 3600 * 1000000000.

(** ** Entries *)

Record entry := mkEntry {
  key : string;
  value : list Byte.byte;
  expiration : Z
}.

#[global] Instance byte_eq_dec : EqDecision Byte.byte := Byte.byte_eq_dec.

#[global] Instance entry_eq_dec : EqDecision entry.
Proof. solve_decision. Defined.

(** [len(e.key) + len(e.value) + 24], without wrap-around. *)
Definition raw_size (e : entry) : Z :=
  Z.of_nat (String.length (key e)) + Z.of_nat (length (value e)) + 24.

(** [entry.size]: the same sum as Go computes it. *)
Definition entry_size (e : entry) : Z :=
  wrap (wrap (Z.of_nat (String.length (key e)) + Z.of_nat (length (value e))) + 24).

(** ** The store *)

Record lru := mkLRU {
  maxMem : Z;
  mem : Z;
  cache : gmap string entry;
  list_ : list entry;
  earliestExpiration : Z;
  disabled : bool;
  reads : Z;
  hits : Z
}.

(** [newLRU]; [now] is the clock at construction. *)
Definition newLRU (maxMem0 : Z) (now : Z) : lru :=
  {| maxMem := maxMem0; mem := 0; cache := ∅; list_ := [];
     earliestExpiration := now + hours24; disabled := false;
     reads := 0; hits := 0 |}.

(** [lru.reset]: a new list, a new map and [mem = 0]; nothing else is
    assigned. *)
Definition reset (c : lru) : lru :=
  {| maxMem := maxMem c; mem := 0; cache := ∅; list_ := [];
     earliestExpiration := earliestExpiration c; disabled := disabled c;
     reads := reads c; hits := hits c |}.

(** [list.Remove(elem)]: unlink the node of [e], the other nodes keep their
    order. *)
Fixpoint list_Remove (e : entry) (l : list entry) : list entry :=
  match l with
  | [] => []
  | x :: l' => if decide (x = e) then l' else x :: list_Remove e l'
  end.

(** [list.MoveToFront(elem)]. *)
Definition list_MoveToFront (e : entry) (l : list entry) : list entry :=
  e :: list_Remove e l.

(** [lru._deleteKey]. *)
Definition _deleteKey (k : string) (c : lru) : lru :=
  match cache c !! k with
  | None => c
  | Some e =>
      {| maxMem := maxMem c;
         mem := wrap (mem c - entry_size e);
         cache := delete (key e) (cache c);
         list_ := list_Remove e (list_ c);
         earliestExpiration := earliestExpiration c; disabled := disabled c;
         reads := reads c; hits := hits c |}
  end.

(** [lru.deleteKey]: [_deleteKey] under the lock. *)
Definition deleteKey (k : string) (c : lru) : lru := _deleteKey k c.

(** [lru.get]; the result is [Some v] for [(v, true)] and [None] for
    [(nil, false)]. *)
Definition get (now : Z) (k : string) (c : lru) : option (list Byte.byte) * lru :=
  if disabled c then (None, c)
  else
    let c1 :=
      {| maxMem := maxMem c; mem := mem c; cache := cache c; list_ := list_ c;
         earliestExpiration := earliestExpiration c; disabled := disabled c;
         reads := wrap (reads c + 1); hits := hits c |} in
    match cache c1 !! k with
    | Some e =>
        if now <? expiration e then
          (Some (value e),
           {| maxMem := maxMem c1; mem := mem c1; cache := cache c1;
              list_ := list_MoveToFront e (list_ c1);
              earliestExpiration := earliestExpiration c1;
              disabled := disabled c1;
              reads := reads c1; hits := wrap (hits c1 + 1) |})
        else (None, _deleteKey (key e) c1)
    | None => (None, c1)
    end.

(** One visit of the loop of [_evictExpired]. *)
Definition sweep_visit (now : Z) (c : lru) (e : entry) : lru :=
  if expiration e <? now then _deleteKey (key e) c
  else if expiration e <? earliestExpiration c then
    {| maxMem := maxMem c; mem := mem c; cache := cache c; list_ := list_ c;
       earliestExpiration := expiration e; disabled := disabled c;
       reads := reads c; hits := hits c |}
  else c.

(** [lru._evictExpired].  The loop walks from the back to the front and
    reads the predecessor of a node before it deletes the key of the node.
    With one node per key (see [wf] below) the node deleted at a visit is
    the visited one, so the loop visits the nodes present when it starts,
    last first. *)
Definition _evictExpired (now : Z) (c : lru) : lru :=
  if now <? earliestExpiration c then c
  else
    foldl (sweep_visit now)
      {| maxMem := maxMem c; mem := mem c; cache := cache c; list_ := list_ c;
         earliestExpiration := now + hours24; disabled := disabled c;
         reads := reads c; hits := hits c |}
      (reverse (list_ c)).

(** The eviction loop of [put]:
    [for c.mem > c.maxMem && c.list.Len() > 1 { ... }].  The source loop has
    no bound of its own; [fuel] bounds the number of iterations and [None]
    says that the bound was reached with the condition still true. *)
Fixpoint evictLoop (fuel : nat) (c : lru) : option lru :=
  if (maxMem c <? mem c) && (1 <? Z.of_nat (length (list_ c))) then
    match fuel with
    | O => None
    | S fuel' =>
        evictLoop fuel'
          (match last (list_ c) with
           | Some oldest => _deleteKey (key oldest) c
           | None => c
           end)
    end
  else Some c.

(** [put] up to the memory test: the old entry of the key is deleted, the
    new entry is pushed at the front and accounted for, and the watermark is
    lowered to its expiration. *)
Definition put_insert (now : Z) (k : string) (v : list Byte.byte) (ttl : Z)
    (c : lru) : lru :=
  let expiration0 := now + ttl in
  let c1 := _deleteKey k c in
  let newEntry := {| key := k; value := v; expiration := expiration0 |} in
  {| maxMem := maxMem c1;
     mem := wrap (mem c1 + entry_size newEntry);
     cache := <[k := newEntry]> (cache c1);
     list_ := newEntry :: list_ c1;
     earliestExpiration :=
       if expiration0 <? earliestExpiration c1 then expiration0
       else earliestExpiration c1;
     disabled := disabled c1; reads := reads c1; hits := hits c1 |}.

(** [lru.put].  [now] is the clock read at the start of [put], [now'] the
    clock read by [_evictExpired]. *)
Definition put (fuel : nat) (now now' : Z) (k : string) (v : list Byte.byte)
    (ttl : Z) (c : lru) : option lru :=
  if disabled c then Some c
  else
    let c1 := put_insert now k v ttl c in
    if maxMem c1 <? mem c1 then evictLoop fuel (_evictExpired now' c1)
    else Some c1.

(** ** The component functions that act on the store *)

Record Stats := mkStats {
  MaxMemory : Z;
  UsedMemory : Z;
  Items : Z;
  Reads : Z;
  Hits : Z
}.

(** [Component.Stats]. *)
Definition Component_Stats (c : lru) : Stats :=
  {| MaxMemory := maxMem c; UsedMemory := mem c;
     Items := Z.of_nat (length (list_ c));
     Reads := reads c; Hits := hits c |}.

(** [Component.Remove]. *)
Definition Component_Remove (k : string) (c : lru) : lru := deleteKey k c.

(** The assignment [c.lru.disabled = disable]. *)
Definition set_disabled (disable : bool) (c : lru) : lru :=
  {| maxMem := maxMem c; mem := mem c; cache := cache c; list_ := list_ c;
     earliestExpiration := earliestExpiration c; disabled := disable;
     reads := reads c; hits := hits c |}.

(** [Component.Disable]. *)
Definition Component_Disable (disable : bool) (c : lru) : lru :=
  set_disabled disable (if disable then reset c else c).

(** [Component.Reset]. *)
Definition Component_Reset (c : lru) : lru := reset c.

(** ** Runs of the store *)

(** The operations a caller can apply, with the clock readings they make. *)
Inductive op :=
| OpGet (now : Z) (k : string)
| OpPut (now now' : Z) (k : string) (v : list Byte.byte) (ttl : Z)
| OpRemove (k : string)
| OpReset
| OpDisable (disable : bool).

(** One operation.  The eviction loop of a [put] removes one node per
    iteration and stops at one node, so the number of nodes before the
    [put] bounds its iterations. *)
Definition step (c : lru) (o : op) : option lru :=
  match o with
  | OpGet now k => Some (snd (get now k c))
  | OpPut now now' k v ttl => put (length (list_ c)) now now' k v ttl c
  | OpRemove k => Some (Component_Remove k c)
  | OpReset => Some (Component_Reset c)
  | OpDisable b => Some (Component_Disable b c)
  end.

Fixpoint run (c : lru) (ops : list op) : option lru :=
  match ops with
  | [] => Some c
  | o :: ops' =>
      match step c o with
      | Some c' => run c' ops'
      | None => None
      end
  end.

(** ** Invariants of the store *)

(** The sum of the sizes of the resident entries. *)
Definition total_size (l : list entry) : Z :=
  foldr (λ e acc, entry_size e + acc) 0 l.

(** The same sum over the sizes without wrap-around. *)
Definition total_raw (l : list entry) : Z :=
  foldr (λ e acc, raw_size e + acc) 0 l.

(** The least expiration among [l], capped by [w]. *)
Definition min_expiration (w : Z) (l : list entry) : Z :=
  foldr (λ e acc, Z.min (expiration e) acc) w l.

(** Index and order hold the same entries, one node per key, and [mem] is
    the sum of their sizes as Go's [int] holds it. *)
Record wf (c : lru) : Prop := mkWf {
  wf_nodup : NoDup (key <$> list_ c);
  wf_index : ∀ k e, cache c !! k = Some e ↔ e ∈ list_ c ∧ key e = k;
  wf_mem : mem c = wrap (total_size (list_ c))
}.

(** No resident entry expires before the watermark. *)
Definition watermark_ok (c : lru) : Prop :=
  ∀ e, e ∈ list_ c → earliestExpiration c ≤ expiration e.

(** An entry is swept when its expiration is before the clock reading. *)
Definition swept (now : Z) (e : entry) : Prop := expiration e < now.

#[global] Instance swept_dec now e : Decision (swept now e).
Proof. unfold swept. apply _. Defined.

(** What a method leaves alone when it only touches the content. *)
Definition same_settings (c c' : lru) : Prop :=
  maxMem c' = maxMem c ∧ disabled c' = disabled c ∧
  reads c' = reads c ∧ hits c' = hits c.

(** The invariant of the runs: the store is well formed, the watermark is
    conservative, and a disabled store is empty. *)
Definition inv (c : lru) : Prop :=
  wf c ∧ watermark_ok c ∧ (disabled c = true → list_ c = []).

(** ** The component *)

(** [defaultTTL], five minutes, and [defaultMem], 64 MiB. *)
Definition defaultTTL : Z := 5 * 60 * 1000000000.
Definition defaultMem : Z := 64 * 1024 * 1024.

(** [Component].  Its [lru] field is a pointer: every component made by one
    builder points to the same store, so the store is not part of the
    record and is passed beside it. *)
Record Component := mkComponent {
  comp_ttl : Z;
  comp_key : string;
  comp_initialized : bool
}.

(** The two options of the package. *)
Inductive Option :=
| WithTTL (d : Z)
| WithMaxMemory (maxBytes : Z).

(** The call [opt(&c)] of an option; [now] is the clock that [newLRU]
    reads when [WithMaxMemory] makes a store. *)
Definition apply_Option (cs : Component * lru) (o : Z * Option) : Component * lru :=
  match snd o with
  | WithTTL d =>
      ({| comp_ttl := d; comp_key := comp_key (fst cs);
          comp_initialized := comp_initialized (fst cs) |}, snd cs)
  | WithMaxMemory maxBytes =>
      if comp_initialized (fst cs) then cs
      else (fst cs, newLRU (if maxBytes =? 0 then int_max else maxBytes) (fst o))
  end.

(** [New], up to the closure it returns: the base component and the store
    it points to.  [t0] is the clock of the first [newLRU]; every option
    comes with the clock at its call. *)
Definition New (t0 : Z) (opts : list (Z * Option)) : Component * lru :=
  let base :=
    foldl apply_Option
      ({| comp_ttl := defaultTTL; comp_key := ""; comp_initialized := false |},
       newLRU defaultMem t0) opts in
  ({| comp_ttl := comp_ttl (fst base); comp_key := comp_key (fst base);
      comp_initialized := true |}, snd base).

(** The closure returned by [New], a [ComponentBuilder]: a copy of the base
    with the key set and the options applied.  [store] is the store the
    base points to. *)
Definition ComponentBuilder (base : Component) (store : lru) (k : string)
    (opts : list (Z * Option)) : Component * lru :=
  foldl apply_Option
    ({| comp_ttl := comp_ttl base; comp_key := k;
        comp_initialized := comp_initialized base |}, store) opts.


(** ** Histories *)

(** The entry made by the last [put] of key [k] in a run, if any. *)
Definition last_put (ops : list op) (k : string) : option entry :=
  foldl (λ acc o,
           match o with
           | OpPut now _ k' v ttl =>
               if decide (k' = k) then Some (mkEntry k' v (now + ttl)) else acc
           | _ => acc
           end) None ops.

(** ** The URL builder *)

Module urlbuilder.

(** The functions of [net/url] that [Build] calls.  They are not of this
    repository and are taken as they come. *)
Class NetURL := {
  PathEscape : string → string;
  QueryEscape : string → string;
  Values_Encode : gmap string (list string) → string
}.

(** [val]: a path segment and whether [Build] escapes it. *)
Record val := mkVal {
  val_val : string;
  shouldEscape : bool
}.

(** [URLBuilder]; [query] is a [url.Values], a map from keys to the lists
    of their values. *)
Record URLBuilder := mkURLBuilder {
  scheme : string;
  host : string;
  path : list val;
  query : gmap string (list string);
  fragment : string
}.

(** [url.Values.Add]: [v[key] = append(v[key], value)]. *)
Definition Values_Add (k v : string) (q : gmap string (list string)) :
    gmap string (list string) :=
  <[k := default [] (q !! k) ++ [v]]> q.

Definition New : URLBuilder :=
  {| scheme := ""; host := ""; path := []; query := ∅; fragment := "" |}.

(** The methods; each returns the builder it changed. *)
Definition URLBuilder_Scheme (scheme0 : string) (ub : URLBuilder) : URLBuilder :=
  {| scheme := scheme0; host := host ub; path := path ub; query := query ub;
     fragment := fragment ub |}.

Definition URLBuilder_Host (host0 : string) (ub : URLBuilder) : URLBuilder :=
  {| scheme := scheme ub; host := host0; path := path ub; query := query ub;
     fragment := fragment ub |}.

Definition URLBuilder_Path (segment : string) (ub : URLBuilder) : URLBuilder :=
  {| scheme := scheme ub; host := host ub;
     path := path ub ++ [{| val_val := segment; shouldEscape := true |}];
     query := query ub; fragment := fragment ub |}.

Definition URLBuilder_Query (k v : string) (ub : URLBuilder) : URLBuilder :=
  {| scheme := scheme ub; host := host ub; path := path ub;
     query := Values_Add k v (query ub); fragment := fragment ub |}.

Definition URLBuilder_Fragment (fragment0 : string) (ub : URLBuilder) : URLBuilder :=
  {| scheme := scheme ub; host := host ub; path := path ub; query := query ub;
     fragment := fragment0 |}.

(** The functions of the package. *)
Definition Scheme (scheme0 : string) : URLBuilder := URLBuilder_Scheme scheme0 New.

Definition Host (host0 : string) : URLBuilder := URLBuilder_Host host0 New.

Definition Path (segment : string) : URLBuilder :=
  {| scheme := scheme New; host := host New;
     path := [{| val_val := segment; shouldEscape := false |}];
     query := query New; fragment := fragment New |}.

(** [buf.WriteString] and [buf.WriteByte] on the content of the
    [strings.Builder]. *)
Definition WriteString (buf s : string) : string := buf +:+ s.
Definition WriteByte (buf : string) (b : Ascii.ascii) : string :=
  buf +:+ String b "".

(** One turn of the loop over the path segments. *)
Definition write_segment `{NetURL} (buf : string) (segment : val) : string :=
  let buf := if String.prefix "/" (val_val segment) then buf
             else WriteByte buf "/"%char in
  if shouldEscape segment then WriteString buf (PathEscape (val_val segment))
  else WriteString buf (val_val segment).

(** [URLBuilder.Build]; a [templ.SafeURL] is a string. *)
Definition Build `{NetURL} (ub : URLBuilder) : string :=
  if decide (scheme ub = "tel" ∨ scheme ub = "mailto") then
    WriteString (WriteByte (WriteString "" (scheme ub)) ":"%char) (host ub)
  else
    let buf := if decide (scheme ub = "") then ""
               else WriteByte (WriteString "" (scheme ub)) ":"%char in
    let buf := if decide (host ub = "") then buf
               else WriteString (WriteString buf "//") (host ub) in
    let buf := foldl write_segment buf (path ub) in
    let buf := if (0 <? size (query ub))%nat
               then WriteString (WriteByte buf "?"%char) (Values_Encode (query ub))
               else buf in
    if decide (fragment ub = "") then buf
    else WriteString (WriteByte buf "#"%char) (QueryEscape (fragment ub)).

(** The calls that extend a builder after its scheme and host are set. *)
Inductive call :=
| CallPath (segment : string)
| CallQuery (k v : string)
| CallFragment (fragment0 : string).

Definition do_call (ub : URLBuilder) (cl : call) : URLBuilder :=
  match cl with
  | CallPath segment => URLBuilder_Path segment ub
  | CallQuery k v => URLBuilder_Query k v ub
  | CallFragment fragment0 => URLBuilder_Fragment fragment0 ub
  end.

End urlbuilder.

(** A stand-in for [net/url] in the samples below: it is not Go's; it
    escapes nothing and encodes every query as the empty string. *)
Definition sample_NetURL : urlbuilder.NetURL :=
  {| urlbuilder.PathEscape := λ s, s;
     urlbuilder.QueryEscape := λ s, s;
     urlbuilder.Values_Encode := λ _, "" |}.

(** The store a run ends in, for the sample runs below ([c0] when the run
    does not end). *)
Definition after (c0 : lru) (ops : list op) : lru := default c0 (run c0 ops).

(** ** Sample data *)

(** The three bytes of ["AAA"]. *)
Definition sample_value : list Byte.byte := [Byte.x41; Byte.x41; Byte.x41].

(** A new store of capacity 100 bytes that served one [put] and one hit. *)
Definition one_hit_ops : list op :=
  [OpPut 0 0 "A" sample_value 1000; OpGet 1 "A"].

(** A new store with one entry that lives for three days. *)
Definition three_days_ops : list op := [OpPut 0 0 "A" sample_value (3 * hours24)].

(** A new store with one entry that expires at instant 10. *)
Definition expires_at_10_ops : list op := [OpPut 0 0 "A" sample_value 10].

(** A new store filled with the entries of [A], [B] and [C]. *)
Definition three_puts_ops : list op :=
  [OpPut 0 0 "A" sample_value 1000; OpPut 1 1 "B" sample_value 1000;
   OpPut 2 2 "C" sample_value 1000].

(** [Component.Render] of a key is a [get] and, on a miss, a [put] of the
    rendered bytes.  The renders of [TestLRUOrder], on a store of 110
    bytes: [A] (miss), [A] (hit), [B], [C], [D] (misses). *)
Definition lru_order_ops : list op :=
  [OpGet 0 "A"; OpPut 0 0 "A" sample_value 1000;
   OpGet 1 "A";
   OpGet 2 "B"; OpPut 2 2 "B" sample_value 1000;
   OpGet 3 "C"; OpPut 3 3 "C" sample_value 1000;
   OpGet 4 "D"; OpPut 4 4 "D" sample_value 1000].

(** The 50000 bytes of [TestMaxMemory]. *)
Definition large_value : list Byte.byte := replicate (Z.to_nat 50000) Byte.x41.

(** ** Lemmas *)

(** *** Arithmetic of [wrap] *)

Lemma wrap_id z : int_min ≤ z ≤ int_max → wrap z = z.
Proof.
  unfold wrap, int_min, int_max. intros Hz.
  rewrite Z.mod_small; lia.
Qed.


Lemma wrap_add_l a b : wrap (wrap a + b) = wrap (a + b).
Proof.
  unfold wrap. f_equal.
  replace ((a + 2 ^ 63) mod 2 ^ 64 - 2 ^ 63 + b + 2 ^ 63)
    with ((a + 2 ^ 63) mod 2 ^ 64 + b) by lia.
  rewrite Zplus_mod_idemp_l. f_equal. lia.
Qed.

Lemma wrap_add_r a b : wrap (a + wrap b) = wrap (a + b).
Proof. rewrite (Z.add_comm a), wrap_add_l. f_equal. lia. Qed.

Lemma wrap_sub_l a b : wrap (wrap a - b) = wrap (a - b).
Proof. unfold Z.sub. apply wrap_add_l. Qed.

Lemma wrap_0 : wrap 0 = 0.
Proof. reflexivity. Qed.

Lemma entry_size_raw e : entry_size e = wrap (raw_size e).
Proof. unfold entry_size, raw_size. apply wrap_add_l. Qed.

Lemma raw_size_pos e : 24 ≤ raw_size e.
Proof. unfold raw_size. lia. Qed.

Lemma entry_size_exact e : raw_size e ≤ int_max → entry_size e = raw_size e.
Proof.
  intros H. rewrite entry_size_raw. apply wrap_id.
  pose proof (raw_size_pos e). unfold int_min. lia.
Qed.

Lemma total_raw_nonneg l : 0 ≤ total_raw l.
Proof.
  induction l as [|e l IH]; simpl; [lia|].
  pose proof (raw_size_pos e). lia.
Qed.

Lemma total_size_exact l : total_raw l ≤ int_max → total_size l = total_raw l.
Proof.
  induction l as [|e l IH]; simpl; [done|]. intros H.
  pose proof (raw_size_pos e). pose proof (total_raw_nonneg l).
  rewrite entry_size_exact, IH; lia.
Qed.

Lemma total_size_app l1 l2 : total_size (l1 ++ l2) = total_size l1 + total_size l2.
Proof. induction l1 as [|e l1 IH]; simpl; lia. Qed.

Lemma total_raw_app l1 l2 : total_raw (l1 ++ l2) = total_raw l1 + total_raw l2.
Proof. induction l1 as [|e l1 IH]; simpl; lia. Qed.

Lemma total_raw_sublist l1 l2 : l1 `sublist_of` l2 → total_raw l1 ≤ total_raw l2.
Proof.
  induction 1 as [|x l1 l2 _ IH|x l1 l2 _ IH]; simpl; [lia|lia|].
  pose proof (raw_size_pos x). lia.
Qed.

Lemma min_expiration_le_cap w l : min_expiration w l ≤ w.
Proof. induction l as [|e l IH]; simpl; lia. Qed.

Lemma min_expiration_le_elem w l e : e ∈ l → min_expiration w l ≤ expiration e.
Proof.
  induction l as [|x l IH]; simpl; [by intros ?%elem_of_nil|].
  intros [->|H]%elem_of_cons; [lia|]. specialize (IH H). lia.
Qed.

Lemma min_expiration_min a w l :
  min_expiration (Z.min a w) l = Z.min a (min_expiration w l).
Proof. induction l as [|x l IH]; simpl; [done|]. rewrite IH. lia. Qed.

Lemma min_expiration_app w l1 l2 :
  min_expiration w (l1 ++ l2) = min_expiration (min_expiration w l2) l1.
Proof. unfold min_expiration. apply foldr_app. Qed.

Lemma min_expiration_reverse w l :
  min_expiration w (reverse l) = min_expiration w l.
Proof.
  revert w. induction l as [|x l IH]; intros w; [done|].
  rewrite reverse_cons, min_expiration_app. simpl.
  rewrite min_expiration_min, IH. done.
Qed.

(** The least expiration is attained, or the cap is returned. *)
Lemma min_expiration_attained w l :
  min_expiration w l = w ∨ ∃ e, e ∈ l ∧ min_expiration w l = expiration e.
Proof.
  induction l as [|x l IH]; simpl; [by left|].
  destruct (Z.min_spec (expiration x) (min_expiration w l)) as [[_ ->]|[_ ->]].
  - right. exists x. split; [left|done].
  - destruct IH as [IH|(e & He & IH)]; [by left|].
    right. exists e. split; [by right|done].
Qed.

(** *** Unlinking a node *)

Lemma list_Remove_sublist e l : list_Remove e l `sublist_of` l.
Proof.
  induction l as [|x l IH]; simpl; [done|].
  case_decide; [by apply sublist_cons | by apply sublist_skip].
Qed.

Lemma list_Remove_not_in e l : e ∉ l → list_Remove e l = l.
Proof.
  induction l as [|x l IH]; simpl; [done|].
  intros [Hne Hnin]%not_elem_of_cons.
  case_decide; [congruence|]. by rewrite IH.
Qed.

Lemma list_Remove_filter e l :
  NoDup l → list_Remove e l = filter (λ x, x ≠ e) l.
Proof.
  induction l as [|x l IH]; simpl; [done|].
  intros [Hx Hl]%NoDup_cons. case_decide as Hd.
  - subst x. rewrite filter_cons_False by (intros H; by apply H).
    rewrite <- IH by done. symmetry. by apply list_Remove_not_in.
  - rewrite filter_cons_True by done. by rewrite IH.
Qed.

Lemma list_Remove_total_size e l :
  e ∈ l → total_size (list_Remove e l) = total_size l - entry_size e.
Proof.
  induction l as [|x l IH]; simpl; [by intros ?%elem_of_nil|].
  intros Hin. case_decide as Hd; [subst; lia|].
  apply elem_of_cons in Hin as [->|Hin]; [done|].
  simpl. rewrite IH by done. lia.
Qed.

Lemma list_Remove_length e l :
  e ∈ l → S (length (list_Remove e l)) = length l.
Proof.
  induction l as [|x l IH]; simpl; [by intros ?%elem_of_nil|].
  intros Hin. case_decide as Hd; [done|].
  apply elem_of_cons in Hin as [->|Hin]; [done|].
  simpl. by rewrite IH.
Qed.

Lemma list_Remove_last e l : e ∉ l → list_Remove e (l ++ [e]) = l.
Proof.
  induction l as [|x l IH]; simpl.
  - intros _. by case_decide.
  - intros [Hne Hnin]%not_elem_of_cons.
    case_decide; [congruence|]. by rewrite IH.
Qed.

Lemma NoDup_keys_NoDup (l : list entry) : NoDup (key <$> l) → NoDup l.
Proof. apply NoDup_fmap_1. Qed.

Lemma filter_ext_in {A} (P1 P2 : A → Prop)
    `{!∀ x, Decision (P1 x), !∀ x, Decision (P2 x)} (l : list A) :
  (∀ x, x ∈ l → P1 x ↔ P2 x) → filter P1 l = filter P2 l.
Proof.
  induction l as [|a l IH]; intros Hiff; [done|].
  rewrite !filter_cons.
  rewrite IH by (intros x Hx; apply Hiff; by right).
  apply decide_ext, Hiff. by left.
Qed.

Lemma filter_all {A} (P : A → Prop) `{!∀ x, Decision (P x)} (l : list A) :
  (∀ x, x ∈ l → P x) → filter P l = l.
Proof.
  induction l as [|a l IH]; intros HP; [done|].
  rewrite filter_cons_True by (apply HP; by left).
  f_equal. apply IH. intros x Hx. apply HP. by right.
Qed.

(** With one node per key, two nodes with the same key are one node. *)
Lemma NoDup_keys_inj (l : list entry) x y :
  NoDup (key <$> l) → x ∈ l → y ∈ l → key x = key y → x = y.
Proof.
  intros Hnd [i Hi]%list_elem_of_lookup [j Hj]%list_elem_of_lookup Hk.
  assert (i = j) as ->; [|congruence].
  eapply NoDup_lookup; [exact Hnd| |]; rewrite list_lookup_fmap.
  - by rewrite Hi.
  - by rewrite Hj, Hk.
Qed.

(** *** Deleting a key *)

Lemma same_settings_refl c : same_settings c c.
Proof. by repeat split. Qed.

Lemma same_settings_trans c1 c2 c3 :
  same_settings c1 c2 → same_settings c2 c3 → same_settings c1 c3.
Proof. unfold same_settings. intros (?&?&?&?) (?&?&?&?). repeat split; congruence. Qed.

Lemma _deleteKey_settings k c : same_settings c (_deleteKey k c).
Proof. unfold _deleteKey. destruct (cache c !! k); by repeat split. Qed.

Lemma _deleteKey_watermark k c :
  earliestExpiration (_deleteKey k c) = earliestExpiration c.
Proof. unfold _deleteKey. by destruct (cache c !! k). Qed.

Lemma wf_lookup_list c e : wf c → e ∈ list_ c → cache c !! key e = Some e.
Proof. intros Hwf He. by apply (wf_index c Hwf). Qed.

(** Deleting the key of a resident node unlinks that node. *)
Lemma _deleteKey_resident c e :
  wf c → e ∈ list_ c →
  list_ (_deleteKey (key e) c) = list_Remove e (list_ c) ∧
  mem (_deleteKey (key e) c) = wrap (mem c - entry_size e).
Proof.
  intros Hwf He. unfold _deleteKey. by rewrite (wf_lookup_list c e Hwf He).
Qed.

Lemma _deleteKey_list k c :
  wf c → list_ (_deleteKey k c) = filter (λ x, key x ≠ k) (list_ c).
Proof.
  intros Hwf. unfold _deleteKey.
  destruct (cache c !! k) as [e|] eqn:Hk; simpl.
  - apply (wf_index c Hwf) in Hk as [He <-].
    pose proof (wf_nodup c Hwf) as Hnd.
    rewrite list_Remove_filter by by apply NoDup_keys_NoDup.
    apply filter_ext_in. intros x Hx. split.
    + intros Hne Hkk. apply Hne. by eapply NoDup_keys_inj.
    + intros Hne ->. by apply Hne.
  - symmetry. apply filter_all. intros x Hx Hkx.
    assert (cache c !! k = Some x) as Hs by (by apply (wf_index c Hwf)).
    congruence.
Qed.

Lemma wf__deleteKey k c : wf c → wf (_deleteKey k c).
Proof.
  intros Hwf. unfold _deleteKey.
  destruct (cache c !! k) as [e|] eqn:Hk; [|done].
  apply (wf_index c Hwf) in Hk as [He <-].
  pose proof (wf_nodup c Hwf) as Hnd.
  split; simpl.
  - eapply sublist_NoDup; [exact Hnd|].
    apply fmap_sublist, list_Remove_sublist.
  - intros k' e'. rewrite lookup_delete_Some, (wf_index c Hwf).
    rewrite list_Remove_filter by by apply NoDup_keys_NoDup.
    rewrite list_elem_of_filter. split.
    + intros (Hne & He' & <-). repeat split; [|done]. by intros ->.
    + intros ((Hne & He') & <-). repeat split; [|done].
      intros Hkk. apply Hne. symmetry. by eapply NoDup_keys_inj.
  - rewrite list_Remove_total_size by done.
    rewrite (wf_mem c Hwf). apply wrap_sub_l.
Qed.

Lemma watermark__deleteKey k c :
  wf c → watermark_ok c → watermark_ok (_deleteKey k c).
Proof.
  intros Hwf Hw e. rewrite _deleteKey_list, _deleteKey_watermark by done.
  intros [_ He]%list_elem_of_filter. by apply Hw.
Qed.

(** *** Construction, reset and disabling *)

Lemma wf_newLRU m t0 : wf (newLRU m t0).
Proof.
  split; simpl.
  - constructor.
  - intros k e. rewrite lookup_empty. split; [done|].
    by intros [?%elem_of_nil _].
  - done.
Qed.

Lemma wf_reset c : wf (reset c).
Proof.
  split; simpl.
  - constructor.
  - intros k e. rewrite lookup_empty. split; [done|].
    by intros [?%elem_of_nil _].
  - done.
Qed.

Lemma wf_Component_Disable b c : wf c → wf (Component_Disable b c).
Proof.
  intros Hwf. unfold Component_Disable, set_disabled.
  destruct b; [pose proof (wf_reset c) as H|pose proof Hwf as H];
    destruct H as [H1 H2 H3]; by split.
Qed.

(** *** Lookup *)

Lemma get_settings now k c :
  maxMem (snd (get now k c)) = maxMem c ∧
  disabled (snd (get now k c)) = disabled c ∧
  earliestExpiration (snd (get now k c)) = earliestExpiration c.
Proof.
  unfold get. destruct (disabled c) eqn:Hd; [done|]. simpl.
  destruct (cache c !! k) as [e|]; [|done].
  destruct (now <? expiration e); [done|].
  unfold _deleteKey; simpl. by destruct (cache c !! key e).
Qed.

(** [wf] only reads the content of the store. *)
Lemma wf_same_content c c' :
  list_ c' = list_ c → cache c' = cache c → mem c' = mem c → wf c → wf c'.
Proof. intros Hl Hc Hm [H1 H2 H3]. split; by rewrite ?Hl, ?Hc, ?Hm. Qed.

Lemma get_reads_enabled now k c :
  disabled c = false → reads (snd (get now k c)) = wrap (reads c + 1).
Proof.
  intros Hd. unfold get. rewrite Hd. cbn [cache].
  destruct (cache c !! k) as [e|]; [|done].
  destruct (now <? expiration e); [done|].
  unfold _deleteKey. cbn [cache snd]. by destruct (cache c !! key e).
Qed.

(** The counter of hits moves on a hit and only then. *)
Lemma get_hits now k c :
  hits (snd (get now k c)) =
    if disabled c then hits c
    else match cache c !! k with
         | Some e => if now <? expiration e then wrap (hits c + 1) else hits c
         | None => hits c
         end.
Proof.
  unfold get. destruct (disabled c); [done|]. cbn [cache].
  destruct (cache c !! k) as [e|]; [|done].
  destruct (now <? expiration e); [done|].
  unfold _deleteKey. cbn [cache snd]. by destruct (cache c !! key e).
Qed.

Lemma list_MoveToFront_perm e l : e ∈ l → list_MoveToFront e l ≡ₚ l.
Proof.
  unfold list_MoveToFront.
  induction l as [|x l IH]; simpl; [by intros ?%elem_of_nil|].
  intros Hin. case_decide as Hd; [by subst|].
  apply elem_of_cons in Hin as [->|Hin]; [done|].
  rewrite <- (IH Hin) at 2. apply Permutation_swap.
Qed.

Lemma total_size_perm l1 l2 : l1 ≡ₚ l2 → total_size l1 = total_size l2.
Proof. induction 1; simpl; lia. Qed.

Lemma wf_get now k c : wf c → wf (snd (get now k c)).
Proof.
  intros Hwf. unfold get. destruct (disabled c); [done|]. simpl.
  destruct (cache c !! k) as [e|] eqn:Hk.
  - destruct (now <? expiration e); simpl.
    + apply (wf_index c Hwf) in Hk as [He <-].
      pose proof (list_MoveToFront_perm e (list_ c) He) as Hp.
      split; cbn [list_ cache mem].
      * rewrite Hp. apply (wf_nodup c Hwf).
      * intros k' e'. rewrite Hp. apply (wf_index c Hwf).
      * rewrite (total_size_perm _ _ Hp). apply (wf_mem c Hwf).
    + apply wf__deleteKey. by apply (wf_same_content c).
  - by apply (wf_same_content c).
Qed.

Lemma watermark_get now k c :
  wf c → watermark_ok c → watermark_ok (snd (get now k c)).
Proof.
  intros Hwf Hw. unfold get. destruct (disabled c); [done|]. simpl.
  destruct (cache c !! k) as [e|] eqn:Hk; [|done].
  destruct (now <? expiration e); simpl.
  - apply (wf_index c Hwf) in Hk as [He <-].
    pose proof (list_MoveToFront_perm e (list_ c) He) as Hp.
    intros e'. cbn [list_ earliestExpiration]. rewrite Hp. apply Hw.
  - apply watermark__deleteKey; [by apply (wf_same_content c)|done].
Qed.

(** *** Insertion *)

Lemma put_insert_list now k v ttl c :
  wf c →
  list_ (put_insert now k v ttl c) =
    {| key := k; value := v; expiration := now + ttl |}
      :: filter (λ x, key x ≠ k) (list_ c).
Proof. intros Hwf. unfold put_insert. simpl. by rewrite _deleteKey_list. Qed.

Lemma put_insert_settings now k v ttl c : same_settings c (put_insert now k v ttl c).
Proof. unfold put_insert. apply (_deleteKey_settings k c). Qed.

Lemma wf_put_insert now k v ttl c : wf c → wf (put_insert now k v ttl c).
Proof.
  intros Hwf. pose proof (wf__deleteKey k c Hwf) as Hwf1.
  pose proof (_deleteKey_list k c Hwf) as Hl.
  unfold put_insert. split; cbn [list_ cache mem].
  - rewrite fmap_cons. cbn [key]. apply NoDup_cons. split; [|apply (wf_nodup _ Hwf1)].
    rewrite Hl. intros (x & Hkx & [Hne _]%list_elem_of_filter)%list_elem_of_fmap.
    by apply Hne.
  - intros k' e'. rewrite lookup_insert_Some, elem_of_cons, (wf_index _ Hwf1).
    split.
    + intros [[<- <-]|[Hne [He' <-]]]; [by split; [left|]|by split; [right|]].
    + intros [[->|He'] <-]; [by left|]. right.
      split; [|by split].
      rewrite Hl in He'. apply list_elem_of_filter in He' as [Hne _].
      intros Hk. by apply Hne.
  - rewrite (wf_mem _ Hwf1), wrap_add_l. f_equal. simpl. lia.
Qed.

Lemma watermark_put_insert now k v ttl c :
  wf c → watermark_ok c → watermark_ok (put_insert now k v ttl c).
Proof.
  intros Hwf Hw e. pose proof (watermark__deleteKey k c Hwf Hw) as Hw1.
  unfold put_insert. simpl.
  intros [->|He]%elem_of_cons; simpl.
  - destruct (Z.ltb_spec (now + ttl) (earliestExpiration (_deleteKey k c))); lia.
  - specialize (Hw1 e He).
    destruct (Z.ltb_spec (now + ttl) (earliestExpiration (_deleteKey k c))); lia.
Qed.

(** *** The expiration sweep *)

Lemma sweep_visit_settings now c e : same_settings c (sweep_visit now c e).
Proof.
  unfold sweep_visit. destruct (expiration e <? now).
  - apply _deleteKey_settings.
  - destruct (expiration e <? earliestExpiration c); by repeat split.
Qed.

(** The visits of a sweep over nodes [r] of the list [l0] the sweep started
    from: the swept nodes of [r] are unlinked and the watermark is lowered
    to the least expiration of the others. *)
Lemma sweep_fold now (l0 : list entry) :
  NoDup (key <$> l0) →
  ∀ (r : list entry) (c : lru),
    r ⊆ l0 → list_ c ⊆ l0 → wf c →
    wf (foldl (sweep_visit now) c r) ∧
    list_ (foldl (sweep_visit now) c r) =
      filter (λ x, ¬ (x ∈ r ∧ swept now x)) (list_ c) ∧
    earliestExpiration (foldl (sweep_visit now) c r) =
      min_expiration (earliestExpiration c) (filter (λ x, ¬ swept now x) r) ∧
    same_settings c (foldl (sweep_visit now) c r).
Proof.
  intros Hnd r. induction r as [|e r IH]; intros c Hr Hc Hwf; simpl.
  - split; [done|]. split; [|split; [done|apply same_settings_refl]].
    symmetry. apply filter_all. intros x _ [?%elem_of_nil _]. done.
  - assert (e ∈ l0) as He by (apply Hr; by left).
    assert (r ⊆ l0) as Hr' by (intros x Hx; apply Hr; by right).
    unfold sweep_visit at 2 4 6 8. unfold swept at 3.
    destruct (Z.ltb_spec (expiration e) now) as [Hlt|Hge].
    + pose proof (wf__deleteKey (key e) c Hwf) as Hwf1.
      assert (list_ (_deleteKey (key e) c) = filter (λ x, x ≠ e) (list_ c)) as Hl1.
      { rewrite _deleteKey_list by done. apply filter_ext_in. intros x Hx. split.
        - intros Hne ->. by apply Hne.
        - intros Hne Hk. apply Hne. eapply NoDup_keys_inj; eauto. }
      assert (list_ (_deleteKey (key e) c) ⊆ l0) as Hc1.
      { rewrite Hl1. intros x [_ Hx]%list_elem_of_filter. by apply Hc. }
      destruct (IH _ Hr' Hc1 Hwf1) as (IH1 & IH2 & IH3 & IH4).
      split; [done|]. split; [|split].
      * rewrite IH2, Hl1, list_filter_filter. apply list_filter_iff.
        intros x. rewrite elem_of_cons. unfold swept. split.
        -- intros [Hn Hne] [[->|Hx] Hs]; [done|]. by apply Hn.
        -- intros Hn. split.
           ++ intros [Hx Hs]. apply Hn. by split; [right|].
           ++ intros ->. apply Hn. by split; [left|].
      * rewrite IH3, _deleteKey_watermark.
        rewrite filter_cons_False; [done|]. unfold swept. lia.
      * eapply same_settings_trans; [apply _deleteKey_settings|done].
    + set (c1 := if expiration e <? earliestExpiration c then _ else c).
      assert (list_ c1 = list_ c) as Hl1 by (unfold c1; by case_match).
      assert (earliestExpiration c1 = Z.min (expiration e) (earliestExpiration c))
        as He1.
      { unfold c1. destruct (Z.ltb_spec (expiration e) (earliestExpiration c));
          simpl; lia. }
      assert (wf c1) as Hwf1.
      { unfold c1. case_match; [by apply (wf_same_content c)|done]. }
      assert (same_settings c c1) as Hs1.
      { unfold c1. case_match; by repeat split. }
      assert (list_ c1 ⊆ l0) as Hc1 by by rewrite Hl1.
      destruct (IH _ Hr' Hc1 Hwf1) as (IH1 & IH2 & IH3 & IH4).
      split; [done|]. split; [|split].
      * rewrite IH2, Hl1. apply list_filter_iff.
        intros x. rewrite elem_of_cons. unfold swept. split.
        -- intros Hn [[->|Hx] Hs]; [lia|]. by apply Hn.
        -- intros Hn [Hx Hs]. apply Hn. by split; [right|].
      * rewrite IH3, He1, min_expiration_min.
        rewrite filter_cons_True; [done|]. unfold swept. lia.
      * by eapply same_settings_trans.
Qed.

Lemma _evictExpired_skip now c :
  now < earliestExpiration c → _evictExpired now c = c.
Proof.
  intros H. unfold _evictExpired.
  by destruct (Z.ltb_spec now (earliestExpiration c)); [|lia].
Qed.

Lemma _evictExpired_run now c :
  wf c → earliestExpiration c ≤ now →
  wf (_evictExpired now c) ∧
  list_ (_evictExpired now c) = filter (λ x, ¬ swept now x) (list_ c) ∧
  earliestExpiration (_evictExpired now c) =
    min_expiration (now + hours24) (list_ (_evictExpired now c)) ∧
  same_settings c (_evictExpired now c).
Proof.
  intros Hwf Hle. unfold _evictExpired.
  destruct (Z.ltb_spec now (earliestExpiration c)); [lia|].
  set (c0 := mkLRU _ _ _ _ _ _ _ _).
  destruct (sweep_fold now (list_ c) (wf_nodup c Hwf) (reverse (list_ c)) c0)
    as (H1 & H2 & H3 & H4).
  - intros x. by rewrite elem_of_reverse.
  - done.
  - by apply (wf_same_content c).
  - simpl in H2, H3.
    assert (list_ (foldl (sweep_visit now) c0 (reverse (list_ c)))
            = filter (λ x, ¬ swept now x) (list_ c)) as Hl.
    { rewrite H2. apply filter_ext_in. intros x Hx.
      rewrite elem_of_reverse. tauto. }
    split; [done|]. split; [done|]. split; [|exact H4].
    rewrite H3, Hl, filter_reverse. apply min_expiration_reverse.
Qed.

Lemma wf__evictExpired now c : wf c → wf (_evictExpired now c).
Proof.
  intros Hwf. destruct (Z.lt_ge_cases now (earliestExpiration c)).
  - by rewrite _evictExpired_skip.
  - by apply _evictExpired_run.
Qed.

Lemma _evictExpired_settings now c :
  wf c → same_settings c (_evictExpired now c).
Proof.
  intros Hwf. destruct (Z.lt_ge_cases now (earliestExpiration c)).
  - rewrite _evictExpired_skip by done. apply same_settings_refl.
  - by apply _evictExpired_run.
Qed.

Lemma _evictExpired_sublist now c :
  wf c → list_ (_evictExpired now c) `sublist_of` list_ c.
Proof.
  intros Hwf. destruct (Z.lt_ge_cases now (earliestExpiration c)).
  - by rewrite _evictExpired_skip.
  - destruct (_evictExpired_run now c) as (_ & -> & _); [done..|].
    apply sublist_filter.
Qed.

Lemma watermark__evictExpired now c :
  wf c → watermark_ok c → watermark_ok (_evictExpired now c).
Proof.
  intros Hwf Hw. destruct (Z.lt_ge_cases now (earliestExpiration c)).
  - by rewrite _evictExpired_skip.
  - destruct (_evictExpired_run now c) as (_ & _ & H3 & _); [done..|].
    intros e He. rewrite H3. by apply min_expiration_le_elem.
Qed.

(** *** The eviction loop *)

(** More fuel does not change the result of a loop that ended. *)
Lemma evictLoop_fuel f : ∀ f' c c',
  evictLoop f c = Some c' → (f ≤ f')%nat → evictLoop f' c = Some c'.
Proof.
  induction f as [|f IH]; intros f' c c'; simpl.
  - destruct ((maxMem c <? mem c) && (1 <? Z.of_nat (length (list_ c)))) eqn:Hc;
      [done|].
    intros H _. destruct f'; simpl; by rewrite Hc.
  - destruct ((maxMem c <? mem c) && (1 <? Z.of_nat (length (list_ c)))) eqn:Hc.
    + intros H Hle. destruct f' as [|f']; [lia|]. simpl. rewrite Hc.
      apply IH; [done|lia].
    + intros H _. destruct f'; simpl; by rewrite Hc.
Qed.

(** On a well-formed store the loop ends within one iteration per node but
    the first.  It leaves a prefix of the order: every longer prefix was
    over the limit, and the prefix left is within the limit or has at most
    one node. *)
Lemma evictLoop_spec fuel : ∀ c,
  wf c → (length (list_ c) ≤ S fuel)%nat →
  ∃ c' n,
    evictLoop fuel c = Some c' ∧ wf c' ∧
    list_ c' = take n (list_ c) ∧ (n ≤ length (list_ c))%nat ∧
    (mem c' ≤ maxMem c' ∨ (length (list_ c') ≤ 1)%nat) ∧
    (∀ m, (n < m ≤ length (list_ c))%nat →
          maxMem c < wrap (total_size (take m (list_ c))) ∧ (1 < m)%nat) ∧
    same_settings c c' ∧ earliestExpiration c' = earliestExpiration c.
Proof.
  assert (∀ (f : nat) c, wf c →
    ¬ (maxMem c < mem c ∧ 1 < Z.of_nat (length (list_ c))) →
    ∃ c' n,
      Some c = Some c' ∧ wf c' ∧
      list_ c' = take n (list_ c) ∧ (n ≤ length (list_ c))%nat ∧
      (mem c' ≤ maxMem c' ∨ (length (list_ c') ≤ 1)%nat) ∧
      (∀ m, (n < m ≤ length (list_ c))%nat →
            maxMem c < wrap (total_size (take m (list_ c))) ∧ (1 < m)%nat) ∧
      same_settings c c' ∧ earliestExpiration c' = earliestExpiration c)
    as Hdone.
  { intros _ c Hwf Hc. exists c, (length (list_ c)).
    rewrite firstn_all. split_and!; try done; try lia.
    all: try apply same_settings_refl.
    all: destruct (decide (mem c ≤ maxMem c)); [by left|right; lia]. }
  induction fuel as [|fuel IH]; intros c Hwf Hlen.
  - simpl.
    destruct (Z.ltb_spec (maxMem c) (mem c)) as [Hm|Hm];
      destruct (Z.ltb_spec 1 (Z.of_nat (length (list_ c)))) as [Hl|Hl];
      simpl; [exfalso; lia|..]; apply (Hdone O); try done; lia.
  - simpl.
    destruct (Z.ltb_spec (maxMem c) (mem c)) as [Hm|Hm];
      destruct (Z.ltb_spec 1 (Z.of_nat (length (list_ c)))) as [Hl|Hl];
      simpl.
    2,3,4: apply (Hdone O); try done; lia.
    destruct (last (list_ c)) as [oldest|] eqn:Hlast.
    2:{ apply last_None in Hlast. rewrite Hlast in Hl. simpl in Hl. lia. }
    apply last_Some in Hlast as [l' Hl'].
    pose proof (wf_nodup c Hwf) as Hnd.
    assert (oldest ∉ l') as Hnin.
    { apply NoDup_keys_NoDup in Hnd. rewrite Hl' in Hnd.
      apply NoDup_app in Hnd as (_ & Hd & _). intros Hin.
      apply (Hd _ Hin). by left. }
    assert (oldest ∈ list_ c) as Hin.
    { rewrite Hl'. apply elem_of_app. right. by left. }
    destruct (_deleteKey_resident c oldest Hwf Hin) as [Hl1 Hm1].
    rewrite Hl', list_Remove_last in Hl1 by done.
    pose proof (wf__deleteKey (key oldest) c Hwf) as Hwf1.
    destruct (IH (_deleteKey (key oldest) c) Hwf1) as
      (c' & n & Hrun & Hwf' & Hlist & Hn & Hstop & Hmin & Hset & Hwm).
    { rewrite Hl1. rewrite Hl', length_app in Hlen. simpl in Hlen. lia. }
    rewrite Hl1 in Hlist, Hn, Hmin.
    exists c', n. rewrite Hl', length_app. simpl.
    split; [done|]. split; [done|]. split; [|split; [lia|]].
    { rewrite Hlist. symmetry. apply take_app_le. done. }
    split; [done|]. split; [|split].
    + intros m Hmr.
      destruct (decide (m ≤ length l')%nat) as [Hle|Hgt].
      * rewrite take_app_le by done.
        destruct (Hmin m) as [H1 H2]; [lia|]. split; [|done].
        destruct (_deleteKey_settings (key oldest) c) as (Hmx & _).
        by rewrite <- Hmx.
      * assert (m = length (l' ++ [oldest])) as ->
          by (rewrite length_app; simpl; lia).
        rewrite firstn_all, <- Hl', <- (wf_mem c Hwf).
        split; [done|lia].
    + eapply same_settings_trans; [apply _deleteKey_settings|done].
    + by rewrite Hwm, _deleteKey_watermark.
Qed.

(** *** [put] as a whole *)

Lemma put_insert_length now k v ttl c :
  wf c → (length (list_ (put_insert now k v ttl c)) ≤ S (length (list_ c)))%nat.
Proof.
  intros Hwf. rewrite put_insert_list by done. simpl.
  pose proof (length_filter (λ x, key x ≠ k) (list_ c)). lia.
Qed.

(** [put] on an enabled store: without pressure it is the insertion; under
    pressure the sweep runs and the loop leaves a prefix of the swept
    order. *)
Lemma put_enabled fuel now now' k v ttl c :
  wf c → (length (list_ c) ≤ fuel)%nat → disabled c = false →
  let c1 := put_insert now k v ttl c in
  let c2 := _evictExpired now' c1 in
  (mem c1 ≤ maxMem c → put fuel now now' k v ttl c = Some c1) ∧
  (maxMem c < mem c1 →
   ∃ c' n,
     put fuel now now' k v ttl c = Some c' ∧ wf c' ∧
     list_ c' = take n (list_ c2) ∧ (n ≤ length (list_ c2))%nat ∧
     (mem c' ≤ maxMem c' ∨ (length (list_ c') ≤ 1)%nat) ∧
     (∀ m, (n < m ≤ length (list_ c2))%nat →
           maxMem c < wrap (total_size (take m (list_ c2))) ∧ (1 < m)%nat) ∧
     same_settings c c' ∧ earliestExpiration c' = earliestExpiration c2).
Proof.
  intros Hwf Hfuel Hen c1 c2.
  pose proof (put_insert_settings now k v ttl c) as (Hmx & Hs1).
  fold c1 in Hmx, Hs1.
  unfold put. rewrite Hen. fold c1. rewrite Hmx. split.
  - intros Hle. by destruct (Z.ltb_spec (maxMem c) (mem c1)); [lia|].
  - intros Hgt. destruct (Z.ltb_spec (maxMem c) (mem c1)); [|lia]. fold c2.
    assert (wf c1) as Hwf1 by by apply wf_put_insert.
    assert (wf c2) as Hwf2 by by apply wf__evictExpired.
    pose proof (_evictExpired_settings now' c1 Hwf1) as Hs2. fold c2 in Hs2.
    destruct (evictLoop_spec fuel c2 Hwf2) as
      (c' & n & Hrun & Hwf' & Hlist & Hn & Hstop & Hmin & Hset & Hwm).
    { pose proof (sublist_length _ _ (_evictExpired_sublist now' c1 Hwf1)) as Ha.
      pose proof (put_insert_length now k v ttl c Hwf) as Hb.
      fold c1 in Hb. fold c2 in Ha. lia. }
    exists c', n. destruct Hs2 as (Hmx2 & Hs2).
    rewrite Hmx2, Hmx in Hmin. split_and!; try done.
    eapply same_settings_trans; [|exact Hset].
    eapply same_settings_trans; [|split; [exact Hmx2|exact Hs2]].
    by split.
Qed.

(** [put] ends on every well-formed store, and keeps it well formed. *)
Lemma put_total fuel now now' k v ttl c :
  wf c → (length (list_ c) ≤ fuel)%nat →
  ∃ c', put fuel now now' k v ttl c = Some c' ∧ wf c' ∧
        (watermark_ok c → watermark_ok c') ∧ same_settings c c' ∧
        (mem c' ≤ maxMem c' ∨ (length (list_ c') ≤ 1)%nat ∨ disabled c = true).
Proof.
  intros Hwf Hfuel. destruct (disabled c) eqn:Hen.
  - exists c. unfold put. rewrite Hen. split_and!; try done.
    by right; right.
  - destruct (put_enabled fuel now now' k v ttl c Hwf Hfuel Hen) as [Hfit Hover].
    pose proof (wf_put_insert now k v ttl c Hwf) as Hwf1.
    pose proof (put_insert_settings now k v ttl c) as Hs1.
    destruct (decide (mem (put_insert now k v ttl c) ≤ maxMem c)) as [Hle|Hgt].
    + eexists. split; [by apply Hfit|]. split_and!; try done.
      * by apply watermark_put_insert.
      * left. by rewrite (proj1 Hs1).
    + destruct Hover as (c' & n & Hrun & Hwf' & Hlist & Hn & Hstop & _ & Hset & Hwm);
        [lia|].
      exists c'. split_and!; try done.
      * intros Hw e. rewrite Hlist, Hwm. intros He.
        apply (watermark__evictExpired now' _ Hwf1).
        -- by apply watermark_put_insert.
        -- eapply sublist_subseteq; [apply sublist_take|done].
      * destruct Hstop; [by left|by right; left].
Qed.

(** The result of a [put] that ends does not depend on the fuel. *)
Lemma put_fuel f f' now now' k v ttl c c' :
  put f now now' k v ttl c = Some c' → (f ≤ f')%nat →
  put f' now now' k v ttl c = Some c'.
Proof.
  unfold put. destruct (disabled c); [done|].
  destruct (maxMem _ <? mem _); [|done]. apply evictLoop_fuel.
Qed.

(** *** Reachable stores *)

Lemma inv_newLRU m t0 : inv (newLRU m t0).
Proof.
  split; [apply wf_newLRU|]. split; [|done].
  by intros e ?%elem_of_nil.
Qed.

Lemma inv_step c o :
  inv c → ∃ c', step c o = Some c' ∧ inv c' ∧ maxMem c' = maxMem c.
Proof.
  intros (Hwf & Hw & Hd). destruct o as [now k|now now' k v ttl|k| |b]; simpl.
  - destruct (get_settings now k c) as (Hmx & Hdis & _).
    eexists. split; [done|]. split; [|done]. split; [by apply wf_get|].
    split; [by apply watermark_get|].
    rewrite Hdis. intros Hdt. unfold get. by rewrite Hdt; auto.
  - destruct (put_total (length (list_ c)) now now' k v ttl c Hwf)
      as (c' & Hrun & Hwf' & Hw' & Hset & _); [done|].
    exists c'. split; [done|]. destruct Hset as (Hmx & Hdis & _).
    split; [|done]. split; [done|]. split; [by apply Hw'|].
    rewrite Hdis. intros Hdt.
    unfold put in Hrun. rewrite Hdt in Hrun. injection Hrun as <-. auto.
  - destruct (_deleteKey_settings k c) as (Hmx & Hdis & _).
    eexists. split; [done|]. unfold Component_Remove, deleteKey.
    split; [|done].
    split; [by apply wf__deleteKey|]. split; [by apply watermark__deleteKey|].
    rewrite Hdis. intros Hdt. rewrite _deleteKey_list, (Hd Hdt) by done. done.
  - eexists. split; [done|]. split; [|done]. split; [apply wf_reset|].
    split; [by intros e ?%elem_of_nil|done].
  - eexists. split; [done|]. split; [|by destruct b].
    split; [by apply wf_Component_Disable|].
    unfold Component_Disable. destruct b; simpl.
    + split; [by intros e ?%elem_of_nil|done].
    + split; [done|]. by intros ?.
Qed.

Lemma inv_run ops : ∀ c,
  inv c → ∃ c', run c ops = Some c' ∧ inv c' ∧ maxMem c' = maxMem c.
Proof.
  induction ops as [|o ops IH]; intros c Hinv; simpl.
  - by exists c.
  - destruct (inv_step c o Hinv) as (c1 & -> & Hinv1 & Hmx1).
    destruct (IH c1 Hinv1) as (c' & Hrun & Hinv' & Hmx').
    exists c'. split; [done|]. split; [done|]. congruence.
Qed.

Lemma run_app c ops1 ops2 :
  run c (ops1 ++ ops2) =
  match run c ops1 with Some c' => run c' ops2 | None => None end.
Proof.
  revert c. induction ops1 as [|o ops1 IH]; intros c; simpl; [done|].
  destruct (step c o); [apply IH|done].
Qed.

(** Every run from a new store ends, in a store that satisfies [inv] and
    has the capacity it was made with. *)
Lemma reachable_inv m t0 ops :
  ∃ c, run (newLRU m t0) ops = Some c ∧ inv c ∧ maxMem c = m.
Proof. apply (inv_run ops (newLRU m t0)), inv_newLRU. Qed.

Lemma reachable_inv' m t0 ops c :
  run (newLRU m t0) ops = Some c → inv c ∧ maxMem c = m.
Proof.
  intros Hrun. destruct (reachable_inv m t0 ops) as (c' & Hrun' & Hinv).
  congruence.
Qed.

(** *** Exact memory accounting *)

Lemma mem_exact c :
  wf c → total_raw (list_ c) ≤ int_max → mem c = total_raw (list_ c).
Proof.
  intros Hwf Hle. rewrite (wf_mem c Hwf), total_size_exact by done.
  apply wrap_id. pose proof (total_raw_nonneg (list_ c)).
  unfold int_min. lia.
Qed.

Lemma wrap_total_size_sublist l L :
  l `sublist_of` L → total_raw L ≤ int_max → wrap (total_size l) = total_raw l.
Proof.
  intros Hsub Hle. pose proof (total_raw_sublist l L Hsub).
  pose proof (total_raw_nonneg l).
  rewrite total_size_exact by lia. apply wrap_id. unfold int_min. lia.
Qed.

(** *** One entry over the capacity *)

(** A [put] whose entry alone is over the capacity, and has not expired
    when the sweep reads the clock, leaves that entry alone in the store. *)
Lemma put_oversized now now' k v ttl c :
  wf c → disabled c = false →
  total_raw (mkEntry k v (now + ttl) :: list_ c) ≤ int_max →
  maxMem c < raw_size (mkEntry k v (now + ttl)) →
  now' ≤ now + ttl →
  ∃ c', step c (OpPut now now' k v ttl) = Some c' ∧ wf c' ∧
        list_ c' = [mkEntry k v (now + ttl)] ∧
        mem c' = raw_size (mkEntry k v (now + ttl)) ∧ maxMem c' = maxMem c.
Proof.
  intros Hwf Hen Hraw Hbig Hlive. set (e := mkEntry k v (now + ttl)) in *.
  destruct (put_enabled (length (list_ c)) now now' k v ttl c Hwf (le_n _) Hen)
    as [_ Hover].
  pose proof (wf_put_insert now k v ttl c Hwf) as Hwf1.
  pose proof (put_insert_list now k v ttl c Hwf) as Hl1. fold e in Hl1.
  set (c1 := put_insert now k v ttl c) in *.
  assert (list_ c1 `sublist_of` e :: list_ c) as Hsub1.
  { rewrite Hl1. apply sublist_skip, sublist_filter. }
  assert (maxMem c < mem c1) as Hpress.
  { rewrite (mem_exact c1 Hwf1).
    - rewrite Hl1. simpl. fold e.
      pose proof (total_raw_nonneg (filter (λ x, key x ≠ k) (list_ c))). lia.
    - pose proof (total_raw_sublist _ _ Hsub1). lia. }
  destruct (Hover Hpress) as
    (c' & n & Hrun & Hwf' & Hlist & Hn & Hstop & Hmin & Hset & _).
  assert (∃ r2, list_ (_evictExpired now' c1) = e :: r2 ∧
                e :: r2 `sublist_of` e :: list_ c) as (r2 & Hl2 & Hsub2).
  { destruct (Z.lt_ge_cases now' (earliestExpiration c1)) as [Hskip|Hrunning].
    - rewrite _evictExpired_skip by done. eexists. split; [exact Hl1|].
      by rewrite <- Hl1.
    - destruct (_evictExpired_run now' c1 Hwf1 Hrunning) as (_ & Hf & _).
      rewrite Hf, Hl1, filter_cons_True by (unfold swept; simpl; lia).
      eexists. split; [done|].
      apply sublist_skip. etrans; apply sublist_filter. }
  rewrite Hl2 in Hlist, Hn, Hmin.
  destruct Hset as (Hmx & _).
  exists c'. split; [exact Hrun|]. split; [done|].
  destruct n as [|n].
  { destruct (Hmin 1%nat) as [_ ?]; [simpl; lia|lia]. }
  simpl in Hlist.
  assert (list_ c' `sublist_of` e :: list_ c) as Hsub'.
  { rewrite Hlist. etrans; [|exact Hsub2]. apply sublist_skip, sublist_take. }
  assert (mem c' = total_raw (list_ c')) as Hmem'.
  { rewrite (wf_mem c' Hwf'). by eapply wrap_total_size_sublist. }
  assert (take n r2 = []) as Hnil.
  { destruct Hstop as [Hle|Hlen].
    - rewrite Hmem', Hlist, Hmx in Hle. simpl in Hle. fold e in Hle.
      pose proof (total_raw_nonneg (take n r2)). lia.
    - rewrite Hlist in Hlen. simpl in Hlen.
      destruct (take n r2); [done|simpl in Hlen; lia]. }
  rewrite Hnil in Hlist. split; [done|]. split; [|done].
  rewrite Hmem', Hlist. simpl. lia.
Qed.

(** *** The counters *)

(** What one operation does to the counters: nothing, unless it is a [get]
    on an enabled store, which adds one to [reads], and one to [hits] when
    it finds an entry that has not expired. *)
Lemma step_counters c o c' :
  wf c → step c o = Some c' →
  (reads c' = reads c ∧ hits c' = hits c) ∨
  (∃ now k, o = OpGet now k ∧ disabled c = false ∧
            reads c' = wrap (reads c + 1) ∧
            (hits c' = hits c ∨
             ∃ e, cache c !! k = Some e ∧ now < expiration e ∧
                  hits c' = wrap (hits c + 1))).
Proof.
  intros Hwf. destruct o as [now k|now now' k v ttl|k| |b]; simpl.
  - intros [= <-]. destruct (disabled c) eqn:Hd.
    + left. unfold get. by rewrite Hd.
    + right. exists now, k. split; [done|]. split; [done|].
      split; [by apply get_reads_enabled|].
      rewrite get_hits, Hd. destruct (cache c !! k) as [e|]; [|by left].
      destruct (Z.ltb_spec now (expiration e)); [|by left].
      right. by exists e.
  - intros Hput.
    destruct (put_total (length (list_ c)) now now' k v ttl c Hwf (le_n _))
      as (c'' & Hput' & _ & _ & (_ & _ & Hr & Hh) & _).
    rewrite Hput in Hput'. injection Hput' as <-. by left.
  - intros [= <-]. left.
    by destruct (_deleteKey_settings k c) as (_ & _ & Hr & Hh).
  - intros [= <-]. by left.
  - intros [= <-]. left. by destruct b.
Qed.

(** A run of [n] operations from a new store leaves
    [0 ≤ hits ≤ reads ≤ n], as long as [n] is an [int]. *)
Lemma run_counters m t0 ops :
  Z.of_nat (length ops) ≤ int_max →
  ∃ c, run (newLRU m t0) ops = Some c ∧ inv c ∧
       0 ≤ hits c ≤ reads c ∧ reads c ≤ Z.of_nat (length ops).
Proof.
  induction ops as [|o ops IH] using rev_ind; intros Hlen.
  - exists (newLRU m t0). split; [done|]. split; [apply inv_newLRU|].
    simpl. lia.
  - rewrite length_app in Hlen. simpl in Hlen.
    destruct IH as (c & Hrun & Hinv & Hhr & Hrn); [lia|].
    destruct (inv_step c o Hinv) as (c' & Hstep & Hinv' & _).
    exists c'. rewrite run_app, Hrun. simpl. rewrite Hstep.
    split; [done|]. split; [done|]. rewrite length_app. simpl.
    assert (wrap (reads c + 1) = reads c + 1) as Hwr
      by (apply wrap_id; unfold int_min, int_max in *; lia).
    assert (wrap (hits c + 1) = hits c + 1) as Hwh
      by (apply wrap_id; unfold int_min, int_max in *; lia).
    destruct (step_counters c o c' (proj1 Hinv) Hstep)
      as [[-> ->]|(now & k & _ & _ & -> & [->|(e & _ & _ & ->)])]; lia.
Qed.

(** *** Recency order *)

(** A hit moves the node to the front and leaves the others in order. *)
Lemma get_hit now k c e :
  wf c → disabled c = false → cache c !! k = Some e → now < expiration e →
  fst (get now k c) = Some (value e) ∧
  list_ (snd (get now k c)) = e :: filter (λ x, x ≠ e) (list_ c).
Proof.
  intros Hwf Hen Hk Hlive. unfold get. rewrite Hen. cbn [cache]. rewrite Hk.
  destruct (Z.ltb_spec now (expiration e)); [|lia]. split; [done|].
  cbn [snd list_]. unfold list_MoveToFront. f_equal.
  apply list_Remove_filter, NoDup_keys_NoDup, (wf_nodup c Hwf).
Qed.

(** A [put] of a new key that fits pushes the entry at the front and
    evicts nothing. *)
Lemma put_fresh_fits now now' k v ttl c :
  wf c → disabled c = false → (∀ x, x ∈ list_ c → key x ≠ k) →
  total_raw (mkEntry k v (now + ttl) :: list_ c) ≤ int_max →
  total_raw (mkEntry k v (now + ttl) :: list_ c) ≤ maxMem c →
  ∃ c', step c (OpPut now now' k v ttl) = Some c' ∧ wf c' ∧
        disabled c' = false ∧ maxMem c' = maxMem c ∧
        list_ c' = mkEntry k v (now + ttl) :: list_ c.
Proof.
  intros Hwf Hen Hfresh Hraw Hfit.
  pose proof (wf_put_insert now k v ttl c Hwf) as Hwf1.
  pose proof (put_insert_list now k v ttl c Hwf) as Hl1.
  rewrite (filter_all _ _ Hfresh) in Hl1.
  pose proof (put_insert_settings now k v ttl c) as (Hmx & Hdis & _).
  destruct (put_enabled (length (list_ c)) now now' k v ttl c Hwf (le_n _) Hen)
    as [Hfits _].
  exists (put_insert now k v ttl c). split.
  - apply Hfits. rewrite mem_exact; by rewrite ?Hl1.
  - split; [done|]. split; [congruence|]. by split.
Qed.

(** A [put] of a new key that is over the limit by no more than the last
    entry, when nothing has expired, evicts the last entry and no other. *)
Lemma put_fresh_evicts_last now now' k v ttl c l old :
  wf c → disabled c = false → list_ c = l ++ [old] →
  (∀ x, x ∈ list_ c → key x ≠ k) →
  total_raw (mkEntry k v (now + ttl) :: list_ c) ≤ int_max →
  maxMem c < total_raw (mkEntry k v (now + ttl) :: list_ c) →
  total_raw (mkEntry k v (now + ttl) :: l) ≤ maxMem c →
  (∀ x, x ∈ mkEntry k v (now + ttl) :: list_ c → now' ≤ expiration x) →
  ∃ c', step c (OpPut now now' k v ttl) = Some c' ∧ wf c' ∧
        disabled c' = false ∧ maxMem c' = maxMem c ∧
        list_ c' = mkEntry k v (now + ttl) :: l.
Proof.
  intros Hwf Hen Hl Hfresh Hraw Hover Hfit Hlive.
  set (e := mkEntry k v (now + ttl)) in *.
  pose proof (wf_put_insert now k v ttl c Hwf) as Hwf1.
  pose proof (put_insert_list now k v ttl c Hwf) as Hl1. fold e in Hl1.
  rewrite (filter_all _ _ Hfresh) in Hl1.
  destruct (put_enabled (length (list_ c)) now now' k v ttl c Hwf (le_n _) Hen)
    as [_ Hpress].
  set (c1 := put_insert now k v ttl c) in *.
  assert (list_ (_evictExpired now' c1) = e :: l ++ [old]) as Hl2.
  { rewrite <- Hl, <- Hl1.
    destruct (Z.lt_ge_cases now' (earliestExpiration c1)) as [Hskip|Hrunning].
    - by rewrite _evictExpired_skip.
    - destruct (_evictExpired_run now' c1 Hwf1 Hrunning) as (_ & -> & _).
      apply filter_all. intros x Hx. rewrite Hl1 in Hx.
      specialize (Hlive x Hx). unfold swept. lia. }
  destruct Hpress as
    (c' & n & Hrun & Hwf' & Hlist & Hn & Hstop & Hmin & (Hmx & Hdis & _) & _).
  { rewrite (mem_exact c1 Hwf1); by rewrite Hl1. }
  rewrite Hl2 in Hlist, Hn, Hmin.
  assert (take (S (length l)) (e :: l ++ [old]) = e :: l) as Htake.
  { simpl. by rewrite take_app_length. }
  assert (n = S (length l)) as ->.
  { simpl in Hn. rewrite length_app in Hn. simpl in Hn.
    destruct (decide (n ≤ length l)%nat) as [Hsmall|Hbig].
    - destruct (Hmin (S (length l))) as [Habove _].
      { simpl. rewrite length_app. simpl. lia. }
      rewrite Htake in Habove.
      rewrite (wrap_total_size_sublist _ (e :: list_ c)) in Habove;
        [lia| |done].
      rewrite Hl. apply sublist_skip, sublist_inserts_r. done.
    - destruct (decide (n = S (length l))) as [|Hfull]; [done|].
      assert (n = length (e :: l ++ [old])) as ->
        by (simpl; rewrite length_app; simpl; lia).
      rewrite firstn_all in Hlist.
      destruct Hstop as [Hle|Hlen].
      + rewrite (wf_mem c' Hwf'), Hlist, <- Hl in Hle.
        rewrite (wrap_total_size_sublist _ (e :: list_ c)) in Hle; [|done..].
        lia.
      + rewrite Hlist in Hlen. simpl in Hlen. rewrite length_app in Hlen.
        simpl in Hlen. lia. }
  exists c'. split; [exact Hrun|]. split; [done|].
  split; [congruence|]. split; [done|]. by rewrite Hlist, Htake.
Qed.

Section three_entries.
(** A new store whose capacity [m] holds three entries of size [s] and
    not four, and four entries [A], [B], [C], [D] of that size with
    different keys, none of which has expired when the [put] of [D]
    sweeps. *)
Variables (m t0 s : Z).
Variables (kA kB kC kD : string) (vA vB vC vD : list Byte.byte).
Variables (nA nB nC nD sA sB sC sD tA tB tC tD : Z).

Let eA := mkEntry kA vA (nA + tA).
Let eB := mkEntry kB vB (nB + tB).
Let eC := mkEntry kC vC (nC + tC).
Let eD := mkEntry kD vD (nD + tD).

Hypothesis Hkeys : NoDup [kA; kB; kC; kD].
Hypothesis HsA : raw_size eA = s.
Hypothesis HsB : raw_size eB = s.
Hypothesis HsC : raw_size eC = s.
Hypothesis HsD : raw_size eD = s.
Hypothesis Hint : 4 * s ≤ int_max.
Hypothesis Hcap : 3 * s ≤ m < 4 * s.
Hypothesis HlA : sD ≤ nA + tA.
Hypothesis HlB : sD ≤ nB + tB.
Hypothesis HlC : sD ≤ nC + tC.
Hypothesis HlD : sD ≤ nD + tD.

Lemma three_entries_keys :
  kA ≠ kB ∧ kA ≠ kC ∧ kA ≠ kD ∧ kB ≠ kC ∧ kB ≠ kD ∧ kC ≠ kD.
Proof.
  pose proof Hkeys as H.
  rewrite !NoDup_cons, !not_elem_of_cons in H. tauto.
Qed.

Lemma three_entries_size : 24 ≤ s.
Proof. pose proof (raw_size_pos eA). lia. Qed.

(** After [A], [B], [C] the order is [C], [B], [A]. *)
Lemma three_entries_filled :
  ∃ c, run (newLRU m t0)
           [OpPut nA sA kA vA tA; OpPut nB sB kB vB tB; OpPut nC sC kC vC tC]
         = Some c ∧
       wf c ∧ disabled c = false ∧ maxMem c = m ∧ list_ c = [eC; eB; eA].
Proof.
  pose proof three_entries_keys as (HAB & HAC & HAD & HBC & HBD & HCD).
  pose proof three_entries_size as Hs.
  destruct (put_fresh_fits nA sA kA vA tA (newLRU m t0))
    as (cA & HstepA & HwfA & HenA & HmxA & HlistA);
    [apply wf_newLRU|done|by intros x ?%elem_of_nil|..].
  { simpl. fold eA. lia. }
  { simpl. fold eA. lia. }
  fold eA in HlistA. simpl in HlistA, HmxA.
  destruct (put_fresh_fits nB sB kB vB tB cA)
    as (cB & HstepB & HwfB & HenB & HmxB & HlistB); [done|done|..].
  { rewrite HlistA. intros x ->%list_elem_of_singleton. simpl. done. }
  { rewrite HlistA. simpl. fold eA eB. lia. }
  { rewrite HlistA. simpl. fold eA eB. lia. }
  fold eB in HlistB. rewrite HlistA in HlistB.
  destruct (put_fresh_fits nC sC kC vC tC cB)
    as (cC & HstepC & HwfC & HenC & HmxC & HlistC); [done|done|..].
  { rewrite HlistB. intros x. rewrite !elem_of_cons, elem_of_nil.
    intros [->|[->|[]]]; simpl; done. }
  { rewrite HlistB. simpl. fold eA eB eC. lia. }
  { rewrite HlistB. simpl. fold eA eB eC. lia. }
  fold eC in HlistC. rewrite HlistB in HlistC.
  exists cC. cbn [run]. rewrite HstepA, HstepB, HstepC.
  split; [done|]. split; [done|]. split; [done|]. split; [congruence|done].
Qed.

(** [A], [B], [C], [D]: the [put] of [D] evicts [A]. *)
Lemma three_entries_evict_oldest :
  ∃ c, run (newLRU m t0)
           [OpPut nA sA kA vA tA; OpPut nB sB kB vB tB; OpPut nC sC kC vC tC;
            OpPut nD sD kD vD tD]
         = Some c ∧ list_ c = [eD; eC; eB].
Proof.
  pose proof three_entries_keys as (HAB & HAC & HAD & HBC & HBD & HCD).
  destruct three_entries_filled as (c3 & Hrun3 & Hwf3 & Hen3 & Hmx3 & Hl3).
  destruct (put_fresh_evicts_last nD sD kD vD tD c3 [eC; eB] eA)
    as (c4 & Hstep4 & _ & _ & _ & Hl4); [done|done|done|..].
  { rewrite Hl3. intros x. rewrite !elem_of_cons, elem_of_nil.
    intros [->|[->|[->|[]]]]; simpl; done. }
  { rewrite Hl3. simpl. fold eA eB eC eD. lia. }
  { rewrite Hl3, Hmx3. simpl. fold eA eB eC eD. lia. }
  { rewrite Hmx3. simpl. fold eB eC eD. lia. }
  { rewrite Hl3. intros x. rewrite !elem_of_cons, elem_of_nil.
    intros [->|[->|[->|[->|[]]]]]; simpl; done. }
  exists c4. split; [|done].
  change [OpPut nA sA kA vA tA; OpPut nB sB kB vB tB; OpPut nC sC kC vC tC;
          OpPut nD sD kD vD tD]
    with ([OpPut nA sA kA vA tA; OpPut nB sB kB vB tB; OpPut nC sC kC vC tC]
            ++ [OpPut nD sD kD vD tD]).
  rewrite run_app, Hrun3. cbn [run]. by rewrite Hstep4.
Qed.

(** [A], [B], [C], a hit on [A], then [D]: the [put] of [D] evicts [B]
    and [A] stays. *)
Lemma three_entries_evict_after_hit (g : Z) :
  g < nA + tA →
  ∃ c, run (newLRU m t0)
           [OpPut nA sA kA vA tA; OpPut nB sB kB vB tB; OpPut nC sC kC vC tC;
            OpGet g kA; OpPut nD sD kD vD tD]
         = Some c ∧ list_ c = [eD; eA; eC].
Proof.
  intros Hg.
  pose proof three_entries_keys as (HAB & HAC & HAD & HBC & HBD & HCD).
  destruct three_entries_filled as (c3 & Hrun3 & Hwf3 & Hen3 & Hmx3 & Hl3).
  assert (cache c3 !! kA = Some eA) as HkA.
  { apply (wf_index c3 Hwf3). rewrite Hl3. split; [|done].
    rewrite !elem_of_cons. auto. }
  destruct (get_hit g kA c3 eA Hwf3 Hen3 HkA Hg) as [_ Hlg].
  rewrite Hl3 in Hlg.
  rewrite filter_cons_True in Hlg by (intros [= ? _ _]; done).
  rewrite filter_cons_True in Hlg by (intros [= ? _ _]; done).
  rewrite filter_cons_False in Hlg by (intros H; by apply H).
  rewrite filter_nil in Hlg.
  destruct (get_settings g kA c3) as (Hmxg & Heng & _).
  pose proof (wf_get g kA c3 Hwf3) as Hwfg.
  destruct (put_fresh_evicts_last nD sD kD vD tD (snd (get g kA c3)) [eA; eC] eB)
    as (c5 & Hstep5 & _ & _ & _ & Hl5); [done|congruence|done|..].
  { rewrite Hlg. intros x. rewrite !elem_of_cons, elem_of_nil.
    intros [->|[->|[->|[]]]]; simpl; done. }
  { rewrite Hlg. simpl. fold eA eB eC eD. lia. }
  { rewrite Hlg, Hmxg, Hmx3. simpl. fold eA eB eC eD. lia. }
  { rewrite Hmxg, Hmx3. simpl. fold eA eC eD. lia. }
  { rewrite Hlg. intros x. rewrite !elem_of_cons, elem_of_nil.
    intros [->|[->|[->|[->|[]]]]]; simpl; done. }
  exists c5. split; [|done].
  change [OpPut nA sA kA vA tA; OpPut nB sB kB vB tB; OpPut nC sC kC vC tC;
          OpGet g kA; OpPut nD sD kD vD tD]
    with ([OpPut nA sA kA vA tA; OpPut nB sB kB vB tB; OpPut nC sC kC vC tC]
            ++ [OpGet g kA; OpPut nD sD kD vD tD]).
  rewrite run_app, Hrun3.
  change (run c3 [OpGet g kA; OpPut nD sD kD vD tD])
    with (run (snd (get g kA c3)) [OpPut nD sD kD vD tD]).
  cbn [run]. by rewrite Hstep5.
Qed.
End three_entries.

(** ** Properties of the store *)

(** C1.  On a store reached from a new store:
    - a [get] that hits returns the value and moves the entry to the front
      of the order, the other entries keeping their order;
    - a [put] on an enabled store deletes the old entry of the key and
      pushes the new entry at the front; when [mem] is then within
      [maxMem] nothing else happens; otherwise the expiration sweep runs
      (it only unlinks nodes) and the loop leaves a prefix of the swept
      order, dropped from the back node by node: every longer prefix was
      over [maxMem] with more than one node, and the prefix left is within
      [maxMem] or has at most one node;
    - with a capacity that holds three entries of one size [s] and not
      four, and nothing expired, the puts of [A], [B], [C], [D] leave
      [D], [C], [B]: [A] is evicted;
    - with a hit on [A] before the put of [D], they leave [D], [A], [C]:
      [B] is evicted and [A] is not. *)
Theorem lru_recency_order :
  (∀ m t0 ops c now k e,
     run (newLRU m t0) ops = Some c →
     disabled c = false → cache c !! k = Some e → now < expiration e →
     fst (get now k c) = Some (value e) ∧
     list_ (snd (get now k c)) = e :: filter (λ x, x ≠ e) (list_ c)) ∧
  (∀ m t0 ops c now now' k v ttl,
     run (newLRU m t0) ops = Some c → disabled c = false →
     let c1 := put_insert now k v ttl c in
     let c2 := _evictExpired now' c1 in
     list_ c1 = mkEntry k v (now + ttl) :: filter (λ x, key x ≠ k) (list_ c) ∧
     mem c1 = wrap (total_size (list_ c1)) ∧
     (mem c1 ≤ maxMem c → step c (OpPut now now' k v ttl) = Some c1) ∧
     (maxMem c < mem c1 →
      ∃ c' n,
        step c (OpPut now now' k v ttl) = Some c' ∧
        list_ c2 `sublist_of` list_ c1 ∧
        list_ c' = take n (list_ c2) ∧ (n ≤ length (list_ c2))%nat ∧
        mem c' = wrap (total_size (list_ c')) ∧
        (mem c' ≤ maxMem c ∨ (length (list_ c') ≤ 1)%nat) ∧
        (∀ j, (n < j ≤ length (list_ c2))%nat →
              maxMem c < wrap (total_size (take j (list_ c2))) ∧ (1 < j)%nat))) ∧
  (∀ m t0 s kA kB kC kD vA vB vC vD nA nB nC nD sA sB sC sD tA tB tC tD,
     let eA := mkEntry kA vA (nA + tA) in
     let eB := mkEntry kB vB (nB + tB) in
     let eC := mkEntry kC vC (nC + tC) in
     let eD := mkEntry kD vD (nD + tD) in
     NoDup [kA; kB; kC; kD] →
     raw_size eA = s → raw_size eB = s → raw_size eC = s → raw_size eD = s →
     4 * s ≤ int_max → 3 * s ≤ m < 4 * s →
     sD ≤ nA + tA → sD ≤ nB + tB → sD ≤ nC + tC → sD ≤ nD + tD →
     (∃ c, run (newLRU m t0)
               [OpPut nA sA kA vA tA; OpPut nB sB kB vB tB;
                OpPut nC sC kC vC tC; OpPut nD sD kD vD tD] = Some c ∧
           list_ c = [eD; eC; eB]) ∧
     (∀ g, g < nA + tA →
        ∃ c, run (newLRU m t0)
               [OpPut nA sA kA vA tA; OpPut nB sB kB vB tB;
                OpPut nC sC kC vC tC; OpGet g kA; OpPut nD sD kD vD tD]
             = Some c ∧
             list_ c = [eD; eA; eC])).
Proof.
  split_and!.
  - intros m t0 ops c now k e Hrun Hen Hk Hlive.
    destruct (reachable_inv' m t0 ops c Hrun) as ((Hwf & _) & _).
    by apply get_hit.
  - intros m t0 ops c now now' k v ttl Hrun Hen c1 c2.
    destruct (reachable_inv' m t0 ops c Hrun) as ((Hwf & _) & _).
    destruct (put_enabled (length (list_ c)) now now' k v ttl c Hwf (le_n _) Hen)
      as [Hfit Hover].
    split; [by apply put_insert_list|].
    split; [apply wf_mem; by apply wf_put_insert|].
    split; [exact Hfit|]. intros Hpress.
    destruct (Hover Hpress) as
      (c' & n & Hput & Hwf' & Hlist & Hn & Hstop & Hmin & (Hmx & _) & _).
    exists c', n. split; [exact Hput|].
    split; [apply _evictExpired_sublist; by apply wf_put_insert|].
    split; [exact Hlist|].
    split; [exact Hn|]. split; [apply (wf_mem c' Hwf')|].
    split; [by rewrite <- Hmx|exact Hmin].
  - intros m t0 s kA kB kC kD vA vB vC vD nA nB nC nD sA sB sC sD tA tB tC tD
      eA eB eC eD Hkeys HsA HsB HsC HsD Hint Hcap HlA HlB HlC HlD.
    split.
    + by eapply three_entries_evict_oldest.
    + intros g Hg. by eapply three_entries_evict_after_hit.
Qed.

Lemma lru_recency_order_witness :
  (∃ c, run (newLRU 84 0) three_puts_ops = Some c ∧
        fst (get 3 "A" c) = Some sample_value ∧
        list_ (snd (get 3 "A" c)) =
          mkEntry "A" sample_value 1000
            :: filter (λ x, x ≠ mkEntry "A" sample_value 1000) (list_ c)) ∧
  (∃ c, run (newLRU 84 0) three_puts_ops = Some c ∧
        list_ (put_insert 3 "D" sample_value 1000 c) =
          mkEntry "D" sample_value 1003
            :: filter (λ x, key x ≠ "D") (list_ c)) ∧
  (∃ c, run (newLRU 84 0)
          [OpPut 0 0 "A" sample_value 1000; OpPut 1 1 "B" sample_value 1000;
           OpPut 2 2 "C" sample_value 1000; OpPut 3 3 "D" sample_value 1000]
        = Some c ∧
        list_ c = [mkEntry "D" sample_value 1003; mkEntry "C" sample_value 1002;
                   mkEntry "B" sample_value 1001]) ∧
  (∃ c, run (newLRU 84 0)
          [OpPut 0 0 "A" sample_value 1000; OpPut 1 1 "B" sample_value 1000;
           OpPut 2 2 "C" sample_value 1000; OpGet 3 "A";
           OpPut 3 3 "D" sample_value 1000]
        = Some c ∧
        list_ c = [mkEntry "D" sample_value 1003; mkEntry "A" sample_value 1000;
                   mkEntry "C" sample_value 1002]).
Proof.
  destruct lru_recency_order as (Hget & Hput & Hex).
  split; [|split].
  - eexists. split; [vm_compute; reflexivity|].
    apply (Hget 84 0 three_puts_ops _ 3 "A" (mkEntry "A" sample_value 1000));
      vm_compute; reflexivity.
  - eexists. split; [vm_compute; reflexivity|].
    apply (Hput 84 0 three_puts_ops _ 3 3 "D" sample_value 1000);
      vm_compute; reflexivity.
  - destruct (Hex 84 0 28 "A" "B" "C" "D"
                sample_value sample_value sample_value sample_value
                0 1 2 3 0 1 2 3 1000 1000 1000 1000) as [H1 H2].
    + apply (bool_decide_unpack _). vm_compute. exact I.
    + reflexivity.
    + reflexivity.
    + reflexivity.
    + reflexivity.
    + vm_compute; discriminate.
    + split; [vm_compute; discriminate|vm_compute; reflexivity].
    + vm_compute; discriminate.
    + vm_compute; discriminate.
    + vm_compute; discriminate.
    + vm_compute; discriminate.
    + split; [exact H1|]. apply H2. vm_compute; reflexivity.
Defined.

(** C2.  On a store reached from a new store of capacity [m], every [put]
    ends, and after it [mem ≤ maxMem] or at most one entry is resident;
    when the capacity is a number of bytes, [0 ≤ m], that is [mem ≤ maxMem]
    or exactly one resident entry.  When the store is enabled, the sizes
    add up without overflow, the new entry alone is larger than the
    capacity and it has not expired when the sweep reads the clock, the
    [put] leaves the new entry as the only resident entry, with [mem] equal
    to its size and above the capacity. *)
Theorem put_respects_capacity (m t0 : Z) (ops : list op) (c : lru)
    (now now' : Z) (k : string) (v : list Byte.byte) (ttl : Z) :
  run (newLRU m t0) ops = Some c →
  ∃ c', step c (OpPut now now' k v ttl) = Some c' ∧ maxMem c' = m ∧
        (mem c' ≤ maxMem c' ∨ (length (list_ c') ≤ 1)%nat) ∧
        (0 ≤ m → mem c' ≤ maxMem c' ∨ length (list_ c') = 1%nat) ∧
        (disabled c = false →
         total_raw (mkEntry k v (now + ttl) :: list_ c) ≤ int_max →
         m < raw_size (mkEntry k v (now + ttl)) →
         now' ≤ now + ttl →
         list_ c' = [mkEntry k v (now + ttl)] ∧
         mem c' = raw_size (mkEntry k v (now + ttl)) ∧
         maxMem c' < mem c').
Proof.
  intros Hrun.
  destruct (reachable_inv' m t0 ops c Hrun) as ((Hwf & _ & Hdis) & Hmx).
  destruct (put_total (length (list_ c)) now now' k v ttl c Hwf (le_n _))
    as (c' & Hput & Hwf' & _ & (Hmx' & _) & Hbound).
  exists c'. split; [exact Hput|]. split; [congruence|].
  assert (disabled c = true → list_ c' = []) as Hoff.
  { intros Hd. unfold put in Hput. rewrite Hd in Hput. injection Hput as <-.
    by apply Hdis. }
  split; [|split].
  - destruct Hbound as [Hle|[Hlen|Hd]]; [by left|by right|].
    right. rewrite (Hoff Hd). simpl. lia.
  - intros Hm.
    assert (list_ c' = [] → mem c' ≤ maxMem c') as Hempty.
    { intros Hl. rewrite (wf_mem c' Hwf'), Hl. simpl. rewrite wrap_0. lia. }
    destruct Hbound as [Hle|[Hlen|Hd]].
    + by left.
    + destruct (list_ c') as [|x [|y l]] eqn:Hl; simpl in Hlen; try lia.
      * left. by apply Hempty.
      * by right.
    + left. by apply Hempty, Hoff.
  - intros Hen Hraw Hbig Hlive.
    destruct (put_oversized now now' k v ttl c Hwf Hen Hraw) as
      (c'' & Hstep & _ & Hl & Hmem & Hmx''); [lia|done|].
    simpl in Hstep. rewrite Hput in Hstep. injection Hstep as <-.
    split; [done|]. split; [done|]. lia.
Qed.

Lemma put_respects_capacity_witness :
  ∃ c', step (newLRU 10 0) (OpPut 0 1 "A" sample_value 1000) = Some c' ∧
        maxMem c' = 10 ∧
        (mem c' ≤ maxMem c' ∨ length (list_ c') = 1%nat) ∧
        list_ c' = [mkEntry "A" sample_value 1000] ∧ mem c' = 28.
Proof.
  destruct (put_respects_capacity 10 0 [] (newLRU 10 0) 0 1 "A" sample_value 1000)
    as (c' & Hstep & Hmx & _ & Hbound & Hbig); [reflexivity|].
  exists c'. split; [exact Hstep|]. split; [exact Hmx|].
  split; [apply Hbound; lia|].
  destruct Hbig as (Hl & Hmem & _);
    [reflexivity|vm_compute; discriminate|vm_compute; reflexivity|lia|].
  split; [exact Hl|exact Hmem].
Defined.

(** C3, as the code has it.  On a reachable store the sweep is the
    identity when [now] is before the watermark.  Otherwise it keeps the
    order of the nodes it leaves, unlinks every entry whose expiration is
    before [now], keeps every entry whose expiration is after [now], keeps
    index and memory counter in step with the list, and sets the watermark
    to the least of [now + 24h] and the expirations of the entries it
    left: [now + 24h] when none is left. *)
Theorem evictExpired_effect (m t0 : Z) (ops : list op) (c : lru) (now : Z) :
  run (newLRU m t0) ops = Some c →
  (now < earliestExpiration c → _evictExpired now c = c) ∧
  (earliestExpiration c ≤ now →
     list_ (_evictExpired now c) `sublist_of` list_ c ∧
     (∀ e, e ∈ list_ c → expiration e < now → e ∉ list_ (_evictExpired now c)) ∧
     (∀ e, e ∈ list_ c → now < expiration e → e ∈ list_ (_evictExpired now c)) ∧
     (∀ k e, cache (_evictExpired now c) !! k = Some e ↔
             e ∈ list_ (_evictExpired now c) ∧ key e = k) ∧
     mem (_evictExpired now c) = wrap (total_size (list_ (_evictExpired now c))) ∧
     earliestExpiration (_evictExpired now c) =
       min_expiration (now + hours24) (list_ (_evictExpired now c)) ∧
     (list_ (_evictExpired now c) = [] →
        earliestExpiration (_evictExpired now c) = now + hours24)).
Proof.
  intros Hrun. destruct (reachable_inv' m t0 ops c Hrun) as ((Hwf & _) & _).
  split; [apply _evictExpired_skip|]. intros Hle.
  destruct (_evictExpired_run now c Hwf Hle) as (Hwf' & Hl & Hw & _).
  split_and!.
  - by apply _evictExpired_sublist.
  - intros e _ Hlt. rewrite Hl. intros [Hn _]%list_elem_of_filter. by apply Hn.
  - intros e He Hgt. rewrite Hl. apply list_elem_of_filter. split; [|done].
    unfold swept. lia.
  - apply (wf_index _ Hwf').
  - apply (wf_mem _ Hwf').
  - done.
  - intros Hnil. by rewrite Hw, Hnil.
Qed.

Lemma evictExpired_effect_witness :
  ∃ c, run (newLRU 100 0) three_days_ops = Some c ∧
       earliestExpiration (_evictExpired hours24 c) =
         min_expiration (hours24 + hours24) (list_ (_evictExpired hours24 c)) ∧
       _evictExpired 5 c = c.
Proof.
  eexists. split; [vm_compute; reflexivity|].
  split.
  - refine (proj1 (proj2 (proj2 (proj2 (proj2 (proj2
      (proj2 (evictExpired_effect 100 0 three_days_ops _ hours24 _) _))))))).
    + vm_compute; reflexivity.
    + vm_compute; discriminate.
  - refine (proj1 (evictExpired_effect 100 0 three_days_ops _ 5 _) _).
    + vm_compute; reflexivity.
    + vm_compute; reflexivity.
Defined.

(** C3 as stated fails in two ways.  A sweep that runs at [24h] over one
    entry that expires at [72h] leaves that entry and sets the watermark to
    [48h], which is not the expiration of the one survivor.  A sweep that
    runs at instant 10 leaves an entry whose expiration is 10. *)
Lemma evictExpired_counterexample :
  (∃ c e, run (newLRU 100 0) three_days_ops = Some c ∧
          earliestExpiration c ≤ hours24 ∧
          list_ (_evictExpired hours24 c) = [e] ∧
          expiration e = 3 * hours24 ∧
          earliestExpiration (_evictExpired hours24 c) = 2 * hours24 ∧
          earliestExpiration (_evictExpired hours24 c) ≠ expiration e) ∧
  (∃ c e, run (newLRU 100 0) expires_at_10_ops = Some c ∧
          earliestExpiration c ≤ 10 ∧
          list_ c = [e] ∧ expiration e ≤ 10 ∧
          list_ (_evictExpired 10 c) = [e]).
Proof.
  split.
  - eexists. eexists. split; [vm_compute; reflexivity|].
    split; [vm_compute; discriminate|].
    split; [vm_compute; reflexivity|].
    split; [vm_compute; reflexivity|].
    split; [vm_compute; reflexivity|vm_compute; discriminate].
  - eexists. eexists. split; [vm_compute; reflexivity|].
    split; [vm_compute; discriminate|].
    split; [vm_compute; reflexivity|].
    split; [vm_compute; discriminate|vm_compute; reflexivity].
Qed.

(** C4.  After every operation of a run from a new store, index and order
    hold the same entries, one node per key, and [mem] is the sum of their
    sizes as Go's [int] holds it: it is the sum of
    [len(key) + len(value) + 24] itself as long as that sum is at most the
    largest [int].  A [put] into a new store of an entry that fits the
    capacity, or that has not expired when the sweep reads the clock,
    leaves [mem = len(key) + len(value) + 24], and [Remove] of its key then
    leaves [mem = 0]. *)
Theorem mem_accounting :
  (∀ m t0 ops,
     ∃ c, run (newLRU m t0) ops = Some c ∧
          NoDup (key <$> list_ c) ∧
          (∀ k e, cache c !! k = Some e ↔ e ∈ list_ c ∧ key e = k) ∧
          mem c = wrap (total_size (list_ c)) ∧
          (total_raw (list_ c) ≤ int_max → mem c = total_raw (list_ c))) ∧
  (∀ m t0 now now' k v ttl,
     raw_size (mkEntry k v (now + ttl)) ≤ int_max →
     raw_size (mkEntry k v (now + ttl)) ≤ m ∨ now' ≤ now + ttl →
     ∃ c', step (newLRU m t0) (OpPut now now' k v ttl) = Some c' ∧
           list_ c' = [mkEntry k v (now + ttl)] ∧
           mem c' = Z.of_nat (String.length k) + Z.of_nat (length v) + 24 ∧
           list_ (Component_Remove k c') = [] ∧
           mem (Component_Remove k c') = 0).
Proof.
  split.
  - intros m t0 ops.
    destruct (reachable_inv m t0 ops) as (c & Hrun & (Hwf & _) & _).
    exists c. split; [done|]. split; [apply (wf_nodup c Hwf)|].
    split; [apply (wf_index c Hwf)|]. split; [apply (wf_mem c Hwf)|].
    by apply mem_exact.
  - intros m t0 now now' k v ttl Hraw Hcase.
    set (e := mkEntry k v (now + ttl)) in *.
    pose proof (wf_newLRU m t0) as Hwf.
    assert (∃ c', step (newLRU m t0) (OpPut now now' k v ttl) = Some c' ∧
                  wf c' ∧ list_ c' = [e] ∧ mem c' = raw_size e)
      as (c' & Hstep & Hwf' & Hl & Hmem).
    { destruct (decide (raw_size e ≤ m)) as [Hfit|Hbig].
      - pose proof (wf_put_insert now k v ttl _ Hwf) as Hwf1.
        pose proof (put_insert_list now k v ttl _ Hwf) as Hl1.
        assert (mem (put_insert now k v ttl (newLRU m t0)) = raw_size e) as Hm1.
        { rewrite mem_exact by (rewrite ?Hl1; simpl; fold e; done || lia).
          rewrite Hl1. simpl. fold e. lia. }
        destruct (put_enabled 0 now now' k v ttl (newLRU m t0) Hwf (le_n _) eq_refl)
          as [Hfits _].
        eexists. split; [apply Hfits; rewrite Hm1; simpl; lia|].
        split; [done|]. split; [exact Hl1|exact Hm1].
      - destruct Hcase as [?|Hlive]; [lia|].
        destruct (put_oversized now now' k v ttl (newLRU m t0) Hwf eq_refl)
          as (c' & Hstep & Hwf' & Hl & Hmem & _);
          [simpl; fold e; lia|simpl; fold e; lia|done|].
        by exists c'. }
    exists c'. split; [done|]. split; [done|]. split; [by rewrite Hmem|].
    pose proof (wf__deleteKey k c' Hwf') as Hwf''.
    assert (list_ (Component_Remove k c') = []) as Hnil.
    { unfold Component_Remove, deleteKey. rewrite _deleteKey_list, Hl by done.
      by rewrite filter_cons_False by (intros H; by apply H). }
    split; [done|].
    unfold Component_Remove, deleteKey in *.
    by rewrite (wf_mem _ Hwf''), Hnil.
Qed.

Lemma mem_accounting_witness :
  ∃ c', step (newLRU 100 0) (OpPut 0 0 "A" sample_value 1000) = Some c' ∧
        list_ c' = [mkEntry "A" sample_value 1000] ∧
        mem c' = 1 + 3 + 24 ∧
        list_ (Component_Remove "A" c') = [] ∧
        mem (Component_Remove "A" c') = 0.
Proof.
  apply (proj2 mem_accounting 100 0 0 0 "A" sample_value 1000).
  - vm_compute; discriminate.
  - left. vm_compute; discriminate.
Defined.

(** C5.  After every operation of a run that starts from a new store,
    whatever the clock readings, [earliestExpiration] is at most the
    expiration of every resident entry, hence at most the least expiration
    among them; on an empty store there is nothing to compare with.  The
    run ends for every sequence of operations. *)
Theorem watermark_never_late (m t0 : Z) (ops : list op) :
  ∃ c, run (newLRU m t0) ops = Some c ∧
       (∀ e, e ∈ list_ c → earliestExpiration c ≤ expiration e) ∧
       match list_ c with
       | [] => True
       | e :: l => earliestExpiration c ≤ min_expiration (expiration e) l
       end.
Proof.
  destruct (reachable_inv m t0 ops) as (c & Hrun & (_ & Hw & _) & _).
  exists c. split; [done|]. split; [exact Hw|].
  unfold watermark_ok in Hw. destruct (list_ c) as [|e l]; [done|].
  destruct (min_expiration_attained (expiration e) l) as [->|(x & Hx & ->)].
  - apply Hw. by left.
  - apply Hw. by right.
Qed.

(** C6.  [Disable(true)] is a [reset] followed by the assignment of the
    flag, so the content is cleared; [Disable(false)] only assigns the flag
    and leaves the content as it is.  On a disabled store every [get]
    misses and every [put] returns the store unchanged. *)
Theorem disable_resets_then_blocks :
  (∀ c, Component_Disable true c = set_disabled true (reset c) ∧
        list_ (Component_Disable true c) = [] ∧
        cache (Component_Disable true c) = ∅ ∧
        mem (Component_Disable true c) = 0 ∧
        disabled (Component_Disable true c) = true) ∧
  (∀ c, Component_Disable false c = set_disabled false c ∧
        list_ (Component_Disable false c) = list_ c ∧
        cache (Component_Disable false c) = cache c ∧
        mem (Component_Disable false c) = mem c ∧
        disabled (Component_Disable false c) = false) ∧
  (∀ now k c, disabled c = true → get now k c = (None, c)) ∧
  (∀ fuel now now' k v ttl c,
     disabled c = true → put fuel now now' k v ttl c = Some c).
Proof.
  split_and!.
  - intros c. by split_and!.
  - intros c. by split_and!.
  - intros now k c Hd. unfold get. by rewrite Hd.
  - intros fuel now now' k v ttl c Hd. unfold put. by rewrite Hd.
Qed.

Lemma disable_resets_then_blocks_witness :
  let c := Component_Disable true (newLRU 100 0) in
  get 5 "A" c = (None, c) ∧ put 0 5 5 "A" sample_value 1000 c = Some c.
Proof.
  destruct disable_resets_then_blocks as (_ & _ & Hget & Hput).
  split; [apply Hget|apply Hput]; reflexivity.
Defined.

(** C7, as the code has it.  A [get] on an enabled store adds one to
    [reads], whatever the lookup finds; a [get] on a disabled store returns
    before the counter and leaves the whole store, [reads] included, as it
    was. *)
Theorem get_counts_reads_when_enabled (now : Z) (k : string) (c : lru) :
  (disabled c = false →
     reads (snd (get now k c)) = wrap (reads c + 1) ∧
     (int_min ≤ reads c < int_max → reads (snd (get now k c)) = reads c + 1)) ∧
  (disabled c = true →
     get now k c = (None, c) ∧ reads (snd (get now k c)) = reads c).
Proof.
  split; intros Hd.
  - split; [by apply get_reads_enabled|].
    intros Hrange. rewrite get_reads_enabled by done.
    apply wrap_id. unfold int_min, int_max in *. lia.
  - unfold get. by rewrite Hd.
Qed.

Lemma get_counts_reads_when_enabled_witness :
  reads (snd (get 5 "A" (newLRU 100 0))) = wrap (reads (newLRU 100 0) + 1) ∧
  get 5 "A" (Component_Disable true (newLRU 100 0))
    = (None, Component_Disable true (newLRU 100 0)).
Proof.
  split.
  - exact (proj1 (proj1 (get_counts_reads_when_enabled 5 "A" (newLRU 100 0))
                    eq_refl)).
  - exact (proj1 (proj2 (get_counts_reads_when_enabled 5 "A"
                           (Component_Disable true (newLRU 100 0))) eq_refl)).
Defined.

(** C7 as stated fails: on a disabled store a [get] does not change
    [reads]. *)
Lemma get_disabled_does_not_count :
  let c := Component_Disable true (newLRU 100 0) in
  reads c = 0 ∧ reads (snd (get 5 "A" c)) = 0 ∧
  reads (snd (get 5 "A" c)) ≠ wrap (reads c + 1).
Proof. vm_compute. split; [done|]. split; [done|]. discriminate. Qed.

(** C8 on the code.  [reset] assigns [mem], the list and the map and
    nothing else, so [Reset] reports no memory and no item and the counters
    it had before; after one [put] and one hit a [Reset] leaves
    [Reads = 1] and [Hits = 1]. *)
Theorem reset_keeps_statistics :
  (∀ c, Component_Stats (Component_Reset c) =
        {| MaxMemory := maxMem c; UsedMemory := 0; Items := 0;
           Reads := reads c; Hits := hits c |}) ∧
  (∃ c, run (newLRU 100 0) (one_hit_ops ++ [OpReset]) = Some c ∧
        Component_Stats c =
        {| MaxMemory := 100; UsedMemory := 0; Items := 0;
           Reads := 1; Hits := 1 |}).
Proof.
  split; [done|]. eexists. split; [vm_compute; reflexivity|reflexivity].
Qed.

(** C9.  After a run of fewer than [2^63 - 1] operations from a new store
    (so that no counter wraps around), [0 ≤ hits ≤ reads].  One more
    operation does not lower [reads] or [hits] and keeps [hits ≤ reads];
    it changes [reads] only if it is a [get] on an enabled store, which
    adds one, and it changes [hits] only if that [get] finds an entry that
    has not expired, which adds one to both. *)
Theorem counters_monotone (m t0 : Z) (ops : list op) :
  Z.of_nat (length ops) < int_max →
  ∃ c, run (newLRU m t0) ops = Some c ∧
       0 ≤ hits c ≤ reads c ∧
       ∀ o, ∃ c', step c o = Some c' ∧
         reads c ≤ reads c' ∧ hits c ≤ hits c' ∧ hits c' ≤ reads c' ∧
         (reads c' ≠ reads c →
            ∃ now k, o = OpGet now k ∧ disabled c = false ∧
                     reads c' = reads c + 1) ∧
         (hits c' ≠ hits c →
            ∃ now k e, o = OpGet now k ∧ disabled c = false ∧
                       cache c !! k = Some e ∧ now < expiration e ∧
                       hits c' = hits c + 1 ∧ reads c' = reads c + 1).
Proof.
  intros Hlen.
  destruct (run_counters m t0 ops) as (c & Hrun & Hinv & Hhr & Hrn); [lia|].
  exists c. split; [done|]. split; [done|]. intros o.
  destruct (inv_step c o Hinv) as (c' & Hstep & _ & _).
  exists c'. split; [done|].
  assert (wrap (reads c + 1) = reads c + 1) as Hwr
    by (apply wrap_id; unfold int_min, int_max in *; lia).
  assert (wrap (hits c + 1) = hits c + 1) as Hwh
    by (apply wrap_id; unfold int_min, int_max in *; lia).
  destruct (step_counters c o c' (proj1 Hinv) Hstep)
    as [[Hr Hh]|(now & k & Ho & Hen & Hr & Hcase)].
  - rewrite Hr, Hh. split_and!; try lia; intros Hne; by destruct Hne.
  - rewrite Hr, Hwr. destruct Hcase as [Hh|(e & Hk & Hlive & Hh)].
    + rewrite Hh. split_and!; try lia.
      intros _. by exists now, k.
    + rewrite Hh, Hwh. split_and!; try lia.
      * intros _. by exists now, k.
      * intros _. by exists now, k, e.
Qed.

Lemma counters_monotone_witness :
  ∃ c, run (newLRU 100 0) one_hit_ops = Some c ∧
       0 ≤ hits c ≤ reads c ∧
       ∀ o, ∃ c', step c o = Some c' ∧
         reads c ≤ reads c' ∧ hits c ≤ hits c' ∧ hits c' ≤ reads c' ∧
         (reads c' ≠ reads c →
            ∃ now k, o = OpGet now k ∧ disabled c = false ∧
                     reads c' = reads c + 1) ∧
         (hits c' ≠ hits c →
            ∃ now k e, o = OpGet now k ∧ disabled c = false ∧
                       cache c !! k = Some e ∧ now < expiration e ∧
                       hits c' = hits c + 1 ∧ reads c' = reads c + 1).
Proof. apply (counters_monotone 100 0 one_hit_ops). vm_compute; reflexivity. Defined.

(** C10.  [reset] changes the content and the memory counter only: list
    and map are empty and [mem] is 0 after it, and the flag, the capacity,
    the watermark and the two counters are as before.
    A disabled store is still disabled after it: every [get] misses and
    every [put] returns the store unchanged. *)
Theorem reset_frame (c : lru) :
  list_ (reset c) = [] ∧ cache (reset c) = ∅ ∧ mem (reset c) = 0 ∧
  disabled (reset c) = disabled c ∧
  maxMem (reset c) = maxMem c ∧
  earliestExpiration (reset c) = earliestExpiration c ∧
  reads (reset c) = reads c ∧ hits (reset c) = hits c ∧
  Component_Reset c = reset c ∧
  (disabled c = true →
     (∀ now k, get now k (reset c) = (None, reset c)) ∧
     (∀ fuel now now' k v ttl,
        put fuel now now' k v ttl (reset c) = Some (reset c))).
Proof.
  split_and!; try done. intros Hd. split.
  - intros now k. unfold get. simpl. by rewrite Hd.
  - intros fuel now now' k v ttl. unfold put. simpl. by rewrite Hd.
Qed.

Lemma reset_frame_witness :
  let c := Component_Disable true (newLRU 100 0) in
  get 5 "A" (reset c) = (None, reset c) ∧
  put 0 5 5 "A" sample_value 1000 (reset c) = Some (reset c).
Proof.
  intros c.
  destruct (reset_frame c) as (_ & _ & _ & _ & _ & _ & _ & _ & _ & H).
  destruct (H eq_refl) as [Hget Hput]. split; [apply Hget|apply Hput].
Defined.

(** ** The tests of the repository on the model *)

(** [TestLRUOrder]: after [A], [A], [B], [C], [D] the store holds [D], [C],
    [B]; a render of [B] is a hit and gives [B], [D], [C]; a render of [E]
    gives [E], [B], [D]. *)
Example test_LRUOrder :
  (λ c, key <$> list_ c) <$> run (newLRU 110 0) lru_order_ops
    = Some ["D"; "C"; "B"] ∧
  (λ c, key <$> list_ c) <$> run (newLRU 110 0) (lru_order_ops ++ [OpGet 5 "B"])
    = Some ["B"; "D"; "C"] ∧
  (λ c, key <$> list_ c) <$>
    run (newLRU 110 0)
      (lru_order_ops ++ [OpGet 5 "B"; OpGet 6 "E"; OpPut 6 6 "E" sample_value 1000])
    = Some ["E"; "B"; "D"].
Proof. split; [|split]; vm_compute; reflexivity. Qed.

(** [TestMaxMemory]: one entry of 50000 bytes under a one-byte key uses
    50025 bytes; a second one evicts the first in a store of 64 KiB and
    stays with it in a store of 110000 bytes. *)
Example test_MaxMemory :
  mem <$> run (newLRU (64 * 1024) 0) [OpPut 0 0 "1" large_value 1000]
    = Some 50025 ∧
  mem <$> run (newLRU (64 * 1024) 0)
            [OpPut 0 0 "1" large_value 1000; OpPut 1 1 "2" large_value 1000]
    = Some 50025 ∧
  mem <$> run (newLRU 110000 0)
            [OpPut 0 0 "1" large_value 1000; OpPut 1 1 "2" large_value 1000]
    = Some (2 * 50025).
Proof. split; [|split]; vm_compute; reflexivity. Qed.

(** [TestEviction]: a store of 100 bytes holds three of the entries [A],
    [B], [C], [D]; once they have all expired, the [put] of [E] sweeps them
    and [E] is alone. *)
Example test_Eviction :
  Items <$> (Component_Stats <$> run (newLRU 100 0)
    [OpPut 0 0 "A" sample_value 50; OpPut 1 1 "B" sample_value 50;
     OpPut 2 2 "C" sample_value 50; OpPut 3 3 "D" sample_value 50])
    = Some 3 ∧
  Items <$> (Component_Stats <$> run (newLRU 100 0)
    [OpPut 0 0 "A" sample_value 50; OpPut 1 1 "B" sample_value 50;
     OpPut 2 2 "C" sample_value 50; OpPut 3 3 "D" sample_value 50;
     OpPut 60 60 "E" sample_value 50])
    = Some 1.
Proof. split; vm_compute; reflexivity. Qed.

(** ** Further properties of the store *)

(** *** What a [put] leaves in the store *)

(** A [put] on an enabled store whose entry has not expired when the sweep
    reads the clock leaves that entry at the front. *)
Lemma put_keeps_new now now' k v ttl c :
  wf c → disabled c = false → now' ≤ now + ttl →
  ∃ c' l, step c (OpPut now now' k v ttl) = Some c' ∧ wf c' ∧
          disabled c' = false ∧ list_ c' = mkEntry k v (now + ttl) :: l.
Proof.
  intros Hwf Hen Hlive. set (e := mkEntry k v (now + ttl)).
  destruct (put_enabled (length (list_ c)) now now' k v ttl c Hwf (le_n _) Hen)
    as [Hfit Hover].
  pose proof (wf_put_insert now k v ttl c Hwf) as Hwf1.
  pose proof (put_insert_list now k v ttl c Hwf) as Hl1. fold e in Hl1.
  pose proof (put_insert_settings now k v ttl c) as (_ & Hdis1 & _).
  set (c1 := put_insert now k v ttl c) in *.
  destruct (decide (mem c1 ≤ maxMem c)) as [Hle|Hgt].
  - exists c1. eexists. split; [by apply Hfit|]. split; [done|].
    split; [congruence|exact Hl1].
  - destruct Hover as
      (c' & n & Hrun & Hwf' & Hlist & Hn & _ & Hmin & (_ & Hdis & _) & _); [lia|].
    assert (∃ r2, list_ (_evictExpired now' c1) = e :: r2) as (r2 & Hl2).
    { destruct (Z.lt_ge_cases now' (earliestExpiration c1)) as [Hskip|Hrunning].
      - rewrite _evictExpired_skip by done. by eexists.
      - destruct (_evictExpired_run now' c1 Hwf1 Hrunning) as (_ & Hf & _).
        rewrite Hf, Hl1, filter_cons_True by (unfold swept; simpl; lia).
        by eexists. }
    rewrite Hl2 in Hlist, Hmin.
    destruct n as [|n].
    { destruct (Hmin 1%nat) as [_ ?]; [simpl; lia|lia]. }
    exists c', (take n r2). split; [exact Hrun|]. split; [done|].
    split; [congruence|exact Hlist].
Qed.

(** After a [put] on an enabled store every resident entry is the new one
    or was resident before under another key. *)
Lemma put_residents now now' k v ttl c c' :
  wf c → disabled c = false → step c (OpPut now now' k v ttl) = Some c' →
  ∀ e, e ∈ list_ c' →
       e = mkEntry k v (now + ttl) ∨ (e ∈ list_ c ∧ key e ≠ k).
Proof.
  intros Hwf Hen Hstep e He.
  destruct (put_enabled (length (list_ c)) now now' k v ttl c Hwf (le_n _) Hen)
    as [Hfit Hover].
  pose proof (wf_put_insert now k v ttl c Hwf) as Hwf1.
  pose proof (put_insert_list now k v ttl c Hwf) as Hl1.
  assert (e ∈ list_ (put_insert now k v ttl c)) as He1.
  { destruct (decide (mem (put_insert now k v ttl c) ≤ maxMem c)) as [Hle|Hgt].
    - simpl in Hstep. rewrite (Hfit Hle) in Hstep. by injection Hstep as <-.
    - destruct Hover as (c'' & n & Hrun & _ & Hlist & _); [lia|].
      simpl in Hstep. rewrite Hrun in Hstep. injection Hstep as <-.
      rewrite Hlist in He.
      eapply sublist_subseteq; [apply _evictExpired_sublist; exact Hwf1|].
      eapply sublist_subseteq; [apply sublist_take|exact He]. }
  rewrite Hl1 in He1. apply elem_of_cons in He1 as [->|Hin]; [by left|].
  apply list_elem_of_filter in Hin as [Hne Hin]. by right.
Qed.

(** *** What a miss leaves in the store *)

Lemma wf_absent c k : wf c → cache c !! k = None ↔ ∀ e, e ∈ list_ c → key e ≠ k.
Proof.
  intros Hwf. split.
  - intros Hnone e He Hk.
    assert (cache c !! k = Some e) by (by apply (wf_index c Hwf)). congruence.
  - intros Hall. destruct (cache c !! k) as [e|] eqn:Hk; [|done].
    apply (wf_index c Hwf) in Hk as [He Hk]. by destruct (Hall e He).
Qed.

Lemma get_miss_absent g k c :
  inv c → fst (get g k c) = None → cache (snd (get g k c)) !! k = None.
Proof.
  intros (Hwf & _ & Hoff). unfold get. destruct (disabled c) eqn:Hd.
  - intros _. simpl. apply wf_absent; [done|].
    rewrite (Hoff eq_refl). by intros e ?%elem_of_nil.
  - cbn [cache]. destruct (cache c !! k) as [e|] eqn:Hk; [|done].
    destruct (Z.ltb_spec g (expiration e)); [done|]. intros _.
    apply (wf_index c Hwf) in Hk as [He <-].
    unfold _deleteKey. cbn [cache snd].
    rewrite (wf_lookup_list c e Hwf He). cbn [cache]. apply lookup_delete_eq.
Qed.

(** *** Histories *)

Lemma last_put_snoc ops o k :
  last_put (ops ++ [o]) k =
    match o with
    | OpPut now _ k' v ttl =>
        if decide (k' = k) then Some (mkEntry k' v (now + ttl))
        else last_put ops k
    | _ => last_put ops k
    end.
Proof. unfold last_put. rewrite foldl_app. simpl. by destruct o. Qed.

(** After one operation every resident entry was resident before, unless
    the operation is the [put] that made it. *)
Lemma step_residents c o c' :
  inv c → step c o = Some c' →
  ∀ e, e ∈ list_ c' →
    (e ∈ list_ c ∧ ∀ now now' v ttl, o ≠ OpPut now now' (key e) v ttl) ∨
    (∃ now now' v ttl, o = OpPut now now' (key e) v ttl ∧
                       e = mkEntry (key e) v (now + ttl)).
Proof.
  intros (Hwf & _ & Hoff). destruct o as [g k|now now' k v ttl|k| |b].
  - simpl. intros [= <-] e He. left. split; [|done].
    revert He. unfold get. destruct (disabled c); [done|]. cbn [cache].
    destruct (cache c !! k) as [x|] eqn:Hk; [|done].
    apply (wf_index c Hwf) in Hk as [Hx <-].
    destruct (g <? expiration x); cbn [snd list_].
    + by rewrite (list_MoveToFront_perm x (list_ c) Hx).
    + rewrite _deleteKey_list by (by apply (wf_same_content c)).
      by intros [_ ?]%list_elem_of_filter.
  - intros Hstep e He. destruct (disabled c) eqn:Hd.
    + simpl in Hstep. unfold put in Hstep. rewrite Hd in Hstep.
      injection Hstep as <-. rewrite (Hoff eq_refl) in He.
      by apply elem_of_nil in He.
    + destruct (put_residents now now' k v ttl c c' Hwf Hd Hstep e He)
        as [->|[Hin Hne]].
      * right. by exists now, now', v, ttl.
      * left. split; [done|]. intros ???? Heq. inversion Heq as [Hk].
        by apply Hne.
  - simpl. intros [= <-] e He. left. split; [|done].
    unfold Component_Remove, deleteKey in He.
    rewrite _deleteKey_list in He by done.
    by apply list_elem_of_filter in He as [_ ?].
  - simpl. intros [= <-] e He. by apply elem_of_nil in He.
  - simpl. intros [= <-] e He. left. split; [|done].
    destruct b; simpl in He; [by apply elem_of_nil in He|done].
Qed.

(** Every resident entry is the one made by the last [put] of its key. *)
Lemma run_last_put m t0 ops : ∀ c,
  run (newLRU m t0) ops = Some c →
  ∀ e, e ∈ list_ c → last_put ops (key e) = Some e.
Proof.
  induction ops as [|o ops IH] using rev_ind; intros c Hrun e He.
  - injection Hrun as <-. by apply elem_of_nil in He.
  - rewrite run_app in Hrun.
    destruct (run (newLRU m t0) ops) as [c0|] eqn:Hrun0; [|done].
    simpl in Hrun. destruct (step c0 o) as [c1|] eqn:Hstep; [|done].
    injection Hrun as <-.
    destruct (reachable_inv' m t0 ops c0 Hrun0) as [Hinv _].
    rewrite last_put_snoc.
    destruct (step_residents c0 o c1 Hinv Hstep e He)
      as [[Hin Hno]|(now & now' & v & ttl & -> & Hnew)].
    + destruct o as [?|now now' k' v ttl| | |]; try by apply (IH c0).
      case_decide as Hk; [|by apply (IH c0)]. subst k'.
      by destruct (Hno now now' v ttl).
    + rewrite decide_True by done. by rewrite <- Hnew.
Qed.

(** ** Further properties *)

(** X1.  On a store reached from a new store and enabled, a [put] whose
    entry has not expired when the sweep reads the clock leaves the entry
    at the front of the order, and a [get] of the key before the
    expiration returns the value that was put. *)
Theorem put_then_get_hits (m t0 : Z) (ops : list op) (c : lru)
    (now now' : Z) (k : string) (v : list Byte.byte) (ttl g : Z) :
  run (newLRU m t0) ops = Some c → disabled c = false →
  now' ≤ now + ttl → g < now + ttl →
  ∃ c' l, step c (OpPut now now' k v ttl) = Some c' ∧
          list_ c' = mkEntry k v (now + ttl) :: l ∧
          fst (get g k c') = Some v.
Proof.
  intros Hrun Hen Hlive Hg.
  destruct (reachable_inv' m t0 ops c Hrun) as ((Hwf & _) & _).
  destruct (put_keeps_new now now' k v ttl c Hwf Hen Hlive)
    as (c' & l & Hstep & Hwf' & Hen' & Hl).
  exists c', l. split; [done|]. split; [done|].
  assert (cache c' !! k = Some (mkEntry k v (now + ttl))) as Hk.
  { apply (wf_index c' Hwf'). rewrite Hl. split; [by left|done]. }
  by destruct (get_hit g k c' _ Hwf' Hen' Hk Hg) as [-> _].
Qed.

Lemma put_then_get_hits_witness :
  ∃ c' l, step (newLRU 100 0) (OpPut 0 1 "A" sample_value 1000) = Some c' ∧
          list_ c' = mkEntry "A" sample_value 1000 :: l ∧
          fst (get 999 "A" c') = Some sample_value.
Proof.
  apply (put_then_get_hits 100 0 [] (newLRU 100 0) 0 1 "A" sample_value 1000 999);
    [reflexivity|reflexivity|vm_compute; discriminate|reflexivity].
Defined.

(** X2.  On a store reached from a new store, after a [put] of key [k]
    with expiration [now + ttl], a [get] of [k] at or after that instant
    misses, and the key is not in the index after it. *)
Theorem put_then_get_expired (m t0 : Z) (ops : list op) (c : lru)
    (now now' : Z) (k : string) (v : list Byte.byte) (ttl g : Z) :
  run (newLRU m t0) ops = Some c → now + ttl ≤ g →
  ∃ c', step c (OpPut now now' k v ttl) = Some c' ∧
        fst (get g k c') = None ∧
        cache (snd (get g k c')) !! k = None.
Proof.
  intros Hrun Hg.
  destruct (reachable_inv' m t0 ops c Hrun) as [Hinv _].
  destruct (inv_step c (OpPut now now' k v ttl) Hinv) as (c' & Hstep & Hinv' & _).
  exists c'. split; [done|].
  assert (fst (get g k c') = None) as Hmiss.
  { unfold get. destruct (disabled c') eqn:Hd'; [done|]. cbn [cache].
    destruct (cache c' !! k) as [e|] eqn:Hk; [|done].
    destruct Hinv as (Hwf & _). destruct Hinv' as (Hwf' & _).
    apply (wf_index c' Hwf') in Hk as [He Hkey].
    assert (disabled c = false) as Hd.
    { destruct (put_total (length (list_ c)) now now' k v ttl c Hwf (le_n _))
        as (c'' & Hput & _ & _ & (_ & Hdis & _) & _).
      simpl in Hstep. rewrite Hput in Hstep. injection Hstep as <-. congruence. }
    destruct (put_residents now now' k v ttl c c' Hwf Hd Hstep e He)
      as [->|[_ Hne]]; [|done].
    simpl. by destruct (Z.ltb_spec g (now + ttl)); [lia|]. }
  split; [done|]. by apply get_miss_absent.
Qed.

Lemma put_then_get_expired_witness :
  ∃ c', step (newLRU 100 0) (OpPut 0 1 "A" sample_value 1000) = Some c' ∧
        fst (get 1000 "A" c') = None ∧
        cache (snd (get 1000 "A" c')) !! "A" = None.
Proof.
  apply (put_then_get_expired 100 0 [] (newLRU 100 0) 0 1 "A" sample_value 1000 1000);
    [reflexivity|vm_compute; discriminate].
Defined.

(** X3.  A [get] that misses on an enabled reachable store: when the key
    is absent the content is untouched; when its entry has expired the
    entry is deleted, the other entries keep their order, the key leaves
    the index and [mem] drops by the size of the entry.  Either way the
    miss adds one to [reads], and leaves [hits] and the watermark alone. *)
Theorem get_miss_effect (m t0 : Z) (ops : list op) (c : lru) (g : Z) (k : string) :
  run (newLRU m t0) ops = Some c → disabled c = false →
  (cache c !! k = None →
     fst (get g k c) = None ∧
     list_ (snd (get g k c)) = list_ c ∧
     cache (snd (get g k c)) = cache c ∧
     mem (snd (get g k c)) = mem c) ∧
  (∀ e, cache c !! k = Some e → expiration e ≤ g →
     fst (get g k c) = None ∧
     list_ (snd (get g k c)) = filter (λ x, key x ≠ k) (list_ c) ∧
     cache (snd (get g k c)) = delete k (cache c) ∧
     mem (snd (get g k c)) = wrap (mem c - entry_size e)) ∧
  (fst (get g k c) = None →
     reads (snd (get g k c)) = wrap (reads c + 1) ∧
     hits (snd (get g k c)) = hits c ∧
     earliestExpiration (snd (get g k c)) = earliestExpiration c).
Proof.
  intros Hrun Hen.
  destruct (reachable_inv' m t0 ops c Hrun) as ((Hwf & _) & _).
  split; [|split].
  - intros Hk. unfold get. rewrite Hen. cbn [cache]. by rewrite Hk.
  - intros e Hk Hexp.
    pose proof Hk as Hk'. apply (wf_index c Hwf) in Hk' as [He Hkey].
    pose proof (_deleteKey_list k c Hwf) as Hl.
    unfold get. rewrite Hen. cbn [cache]. rewrite Hk.
    destruct (Z.ltb_spec g (expiration e)); [lia|]. cbn [fst snd].
    rewrite Hkey. unfold _deleteKey in *. cbn [cache]. rewrite Hk in *.
    cbn [list_ cache mem] in *. by rewrite Hkey.
  - intros Hmiss. split; [by apply get_reads_enabled|].
    destruct (get_settings g k c) as (_ & _ & Hw). split; [|done].
    rewrite get_hits, Hen. destruct (cache c !! k) as [e|] eqn:Hk; [|done].
    destruct (g <? expiration e) eqn:Hlt; [|done].
    unfold get in Hmiss. rewrite Hen in Hmiss. cbn [cache] in Hmiss.
    by rewrite Hk, Hlt in Hmiss.
Qed.

Lemma get_miss_effect_witness :
  let c := after (newLRU 100 0) expires_at_10_ops in
  (fst (get 10 "A" c) = None ∧
   list_ (snd (get 10 "A" c)) = filter (λ x, key x ≠ "A") (list_ c) ∧
   cache (snd (get 10 "A" c)) = delete "A" (cache c) ∧
   mem (snd (get 10 "A" c)) = wrap (mem c - 28)) ∧
  (fst (get 10 "B" c) = None ∧ list_ (snd (get 10 "B" c)) = list_ c ∧
   cache (snd (get 10 "B" c)) = cache c ∧ mem (snd (get 10 "B" c)) = mem c).
Proof.
  intros c.
  destruct (get_miss_effect 100 0 expires_at_10_ops c 10 "A")
    as (_ & Hexp & _); [vm_compute; reflexivity|vm_compute; reflexivity|].
  destruct (get_miss_effect 100 0 expires_at_10_ops c 10 "B")
    as (Habs & _ & _); [vm_compute; reflexivity|vm_compute; reflexivity|].
  split.
  - apply (Hexp (mkEntry "A" sample_value 10));
      [vm_compute; reflexivity|vm_compute; discriminate].
  - apply Habs. vm_compute; reflexivity.
Defined.

(** X4.  [Remove] on a reachable store deletes the entry of the key and no
    other: the other entries keep their order and their index entries,
    [mem] drops by the size of the deleted entry, the settings, counters
    and watermark are untouched.  When the key is absent the store is
    unchanged, so a second [Remove] changes nothing, and a [get] of the key
    after a [Remove] misses. *)
Theorem remove_effect (m t0 : Z) (ops : list op) (c : lru) (k : string) :
  run (newLRU m t0) ops = Some c →
  list_ (Component_Remove k c) = filter (λ x, key x ≠ k) (list_ c) ∧
  cache (Component_Remove k c) = delete k (cache c) ∧
  (∀ e, cache c !! k = Some e →
        mem (Component_Remove k c) = wrap (mem c - entry_size e)) ∧
  (cache c !! k = None → Component_Remove k c = c) ∧
  Component_Remove k (Component_Remove k c) = Component_Remove k c ∧
  (∀ g, fst (get g k (Component_Remove k c)) = None) ∧
  same_settings c (Component_Remove k c) ∧
  earliestExpiration (Component_Remove k c) = earliestExpiration c.
Proof.
  intros Hrun.
  destruct (reachable_inv' m t0 ops c Hrun) as ((Hwf & _) & _).
  unfold Component_Remove, deleteKey.
  assert (cache (_deleteKey k c) = delete k (cache c)) as Hc.
  { unfold _deleteKey. destruct (cache c !! k) as [e|] eqn:Hk; cbn [cache].
    - apply (wf_index c Hwf) in Hk as [_ Hkey]. by rewrite Hkey.
    - symmetry. by apply delete_id. }
  assert (cache (_deleteKey k c) !! k = None) as Hgone
    by (rewrite Hc; apply lookup_delete_eq).
  split_and!.
  - by apply _deleteKey_list.
  - done.
  - intros e Hk. unfold _deleteKey. by rewrite Hk.
  - intros Hk. unfold _deleteKey. by rewrite Hk.
  - unfold _deleteKey at 1. by rewrite Hgone.
  - intros g. unfold get. destruct (disabled (_deleteKey k c)); [done|].
    cbn [cache]. by rewrite Hgone.
  - apply _deleteKey_settings.
  - apply _deleteKey_watermark.
Qed.

Lemma remove_effect_witness :
  let c := after (newLRU 100 0) three_puts_ops in
  mem (Component_Remove "B" c) = wrap (mem c - 28) ∧
  Component_Remove "D" c = c.
Proof.
  intros c.
  destruct (remove_effect 100 0 three_puts_ops c "B")
    as (_ & _ & Hmem & _); [vm_compute; reflexivity|].
  destruct (remove_effect 100 0 three_puts_ops c "D")
    as (_ & _ & _ & Hid & _); [vm_compute; reflexivity|].
  split.
  - apply (Hmem (mkEntry "B" sample_value 1001)). vm_compute; reflexivity.
  - apply Hid. vm_compute; reflexivity.
Defined.

(** X5.  A hit never returns a stale value: on a store reached by a run
    from a new store, when [get] of key [k] at instant [g] returns a value,
    that value is the one given to the last [put] of [k] in the run, and
    the expiration that [put] computed is after [g]. *)
Theorem no_stale_read (m t0 : Z) (ops : list op) (c : lru) (g : Z) (k : string)
    (v : list Byte.byte) :
  run (newLRU m t0) ops = Some c → fst (get g k c) = Some v →
  ∃ e, last_put ops k = Some e ∧ key e = k ∧ value e = v ∧ g < expiration e.
Proof.
  intros Hrun Hhit.
  destruct (reachable_inv' m t0 ops c Hrun) as ((Hwf & _) & _).
  unfold get in Hhit. destruct (disabled c); [done|]. cbn [cache] in Hhit.
  destruct (cache c !! k) as [e|] eqn:Hk; [|done].
  destruct (Z.ltb_spec g (expiration e)); [|done].
  injection Hhit as <-.
  apply (wf_index c Hwf) in Hk as [He Hkey].
  exists e. rewrite <- Hkey at 1. split; [by eapply run_last_put|done].
Qed.

Lemma no_stale_read_witness :
  ∃ e, last_put one_hit_ops "A" = Some e ∧ key e = "A" ∧
       value e = sample_value ∧ 5 < expiration e.
Proof.
  apply (no_stale_read 100 0 one_hit_ops (after (newLRU 100 0) one_hit_ops)
           5 "A" sample_value); vm_compute; reflexivity.
Defined.

(** *** Equality of well-formed stores *)

(** A well-formed store is determined by its order and its other fields:
    the index and the memory counter follow from the order. *)
Lemma wf_ext c1 c2 :
  wf c1 → wf c2 → list_ c1 = list_ c2 → same_settings c1 c2 →
  earliestExpiration c1 = earliestExpiration c2 → c1 = c2.
Proof.
  intros Hwf1 Hwf2 Hl (Hmx & Hd & Hr & Hh) Hw.
  assert (cache c1 = cache c2) as Hc.
  { apply map_eq. intros k. apply option_eq. intros e.
    by rewrite (wf_index c1 Hwf1), (wf_index c2 Hwf2), Hl. }
  assert (mem c1 = mem c2) as Hm
    by (by rewrite (wf_mem c1 Hwf1), (wf_mem c2 Hwf2), Hl).
  clear Hwf1 Hwf2.
  destruct c1 as [mx1 m1 ch1 l1 w1 d1 r1 h1], c2 as [mx2 m2 ch2 l2 w2 d2 r2 h2].
  cbn [maxMem mem cache list_ earliestExpiration disabled reads hits] in *.
  congruence.
Qed.

(** X6.  A second sweep at the same clock reading changes nothing: on a
    reachable store [_evictExpired now] is idempotent. *)
Theorem evictExpired_idempotent (m t0 : Z) (ops : list op) (c : lru) (now : Z) :
  run (newLRU m t0) ops = Some c →
  _evictExpired now (_evictExpired now c) = _evictExpired now c.
Proof.
  intros Hrun.
  destruct (reachable_inv' m t0 ops c Hrun) as ((Hwf & _) & _).
  destruct (Z.lt_ge_cases now (earliestExpiration c)) as [Hskip|Hran].
  { rewrite (_evictExpired_skip now c Hskip). by apply _evictExpired_skip. }
  destruct (_evictExpired_run now c Hwf Hran) as (Hwf' & Hl' & Hw' & Hs').
  set (c' := _evictExpired now c) in *.
  destruct (Z.lt_ge_cases now (earliestExpiration c')) as [Hskip'|Hran'].
  { by rewrite _evictExpired_skip. }
  destruct (_evictExpired_run now c' Hwf' Hran') as (Hwf'' & Hl'' & Hw'' & Hs'').
  assert (list_ (_evictExpired now c') = list_ c') as Hsame.
  { rewrite Hl'', Hl'. by apply list_filter_filter_l. }
  apply wf_ext; try done.
  - destruct Hs'' as (?&?&?&?). by repeat split.
  - by rewrite Hw'', Hsame, Hw'.
Qed.

Lemma evictExpired_idempotent_witness :
  let c := after (newLRU 100 0) expires_at_10_ops in
  _evictExpired 11 (_evictExpired 11 c) = _evictExpired 11 c.
Proof.
  apply (evictExpired_idempotent 100 0 expires_at_10_ops). vm_compute; reflexivity.
Defined.

(** *** Options *)

Lemma apply_Option_initialized cs o :
  comp_initialized (fst (apply_Option cs o)) = comp_initialized (fst cs).
Proof.
  unfold apply_Option. destruct (snd o); [done|].
  by destruct (comp_initialized (fst cs)) eqn:Hi.
Qed.

Lemma foldl_apply_Option_initialized opts : ∀ cs,
  comp_initialized (fst (foldl apply_Option cs opts)) = comp_initialized (fst cs).
Proof.
  induction opts as [|o opts IH]; intros cs; simpl; [done|].
  by rewrite IH, apply_Option_initialized.
Qed.

Lemma foldl_apply_Option_key opts : ∀ cs,
  comp_key (fst (foldl apply_Option cs opts)) = comp_key (fst cs).
Proof.
  induction opts as [|o opts IH]; intros cs; simpl; [done|].
  rewrite IH. unfold apply_Option. destruct (snd o); [done|].
  by destruct (comp_initialized (fst cs)) eqn:Hi.
Qed.

(** Without [WithTTL] the options leave the time to live alone. *)
Lemma foldl_apply_Option_ttl opts : ∀ cs,
  Forall (λ o, ∀ d, snd o ≠ WithTTL d) opts →
  comp_ttl (fst (foldl apply_Option cs opts)) = comp_ttl (fst cs).
Proof.
  induction opts as [|[t [d|n]] opts IH]; intros cs Hall; simpl; [done| |].
  - apply Forall_cons in Hall as [Hno _]. by destruct (Hno d).
  - apply Forall_cons in Hall as [_ Hall]. rewrite IH by done.
    unfold apply_Option. simpl. by destruct (comp_initialized (fst cs)) eqn:Hi.
Qed.

(** Once the component is initialized no option touches the store. *)
Lemma foldl_apply_Option_store opts : ∀ cs,
  comp_initialized (fst cs) = true → snd (foldl apply_Option cs opts) = snd cs.
Proof.
  induction opts as [|o opts IH]; intros cs Hinit; simpl; [done|].
  rewrite IH by (by rewrite apply_Option_initialized).
  unfold apply_Option. destruct (snd o); [done|]. by rewrite Hinit.
Qed.

(** While the component is not initialized the store is a new store of
    capacity other than 0. *)
Lemma foldl_apply_Option_new opts : ∀ cs m t,
  comp_initialized (fst cs) = false → snd cs = newLRU m t → m ≠ 0 →
  ∃ m' t', snd (foldl apply_Option cs opts) = newLRU m' t' ∧ m' ≠ 0 ∧
           (Forall (λ o, ∀ n, snd o ≠ WithMaxMemory n) opts → m' = m ∧ t' = t).
Proof.
  induction opts as [|o opts IH]; intros cs m t Hinit Hs Hm; simpl.
  - exists m, t. by split_and!.
  - destruct o as [now [d|n]].
    + destruct (IH (apply_Option cs (now, WithTTL d)) m t)
        as (m' & t' & Heq & Hne & Hdef); [done..|].
      exists m', t'. split; [done|]. split; [done|].
      intros Hall. apply Hdef. by apply Forall_cons in Hall as [_ ?].
    + destruct (IH (apply_Option cs (now, WithMaxMemory n))
                   (if n =? 0 then int_max else n) now)
        as (m' & t' & Heq & Hne & _).
      * by rewrite apply_Option_initialized.
      * unfold apply_Option. simpl. by rewrite Hinit.
      * destruct (Z.eqb_spec n 0); [done|lia].
      * exists m', t'. split; [done|]. split; [done|].
        intros Hall. apply Forall_cons in Hall as [Hno _]. by destruct (Hno n).
Qed.



(** X8.  [New] returns an initialized base component with the empty key,
    and a new store (empty, counters at 0, enabled) whose capacity is never
    0.  Without [WithMaxMemory] among the options the capacity is
    [defaultMem]; without [WithTTL] the time to live is [defaultTTL]; a
    [WithTTL] as the last option sets it. *)
Theorem New_makes_new_store (t0 : Z) (opts : list (Z * Option)) :
  comp_initialized (fst (New t0 opts)) = true ∧
  comp_key (fst (New t0 opts)) = "" ∧
  (∃ m t, snd (New t0 opts) = newLRU m t ∧ m ≠ 0 ∧
          (Forall (λ o, ∀ n, snd o ≠ WithMaxMemory n) opts →
           m = defaultMem ∧ t = t0)) ∧
  (Forall (λ o, ∀ d, snd o ≠ WithTTL d) opts →
   comp_ttl (fst (New t0 opts)) = defaultTTL) ∧
  (∀ t d, comp_ttl (fst (New t0 (opts ++ [(t, WithTTL d)]))) = d).
Proof.
  split; [done|]. split; [apply foldl_apply_Option_key|]. split; [|split].
  - unfold New. cbn [snd].
    by apply (foldl_apply_Option_new opts _ defaultMem t0).
  - intros Hall. unfold New. cbn [fst comp_ttl].
    by rewrite foldl_apply_Option_ttl.
  - intros t d. unfold New. cbn [fst comp_ttl]. by rewrite foldl_app.
Qed.

Lemma New_makes_new_store_witness :
  (∃ m t, snd (New 7 [(8, WithTTL 5)]) = newLRU m t ∧ m ≠ 0 ∧
          m = defaultMem ∧ t = 7) ∧
  comp_ttl (fst (New 7 [(8, WithMaxMemory 100)])) = defaultTTL.
Proof.
  destruct (New_makes_new_store 7 [(8, WithTTL 5)])
    as (_ & _ & (m & t & Hs & Hm & Hdef) & _).
  destruct (New_makes_new_store 7 [(8, WithMaxMemory 100)])
    as (_ & _ & _ & Httl & _).
  split.
  - exists m, t. split; [exact Hs|]. split; [exact Hm|].
    apply Hdef. repeat constructor; simpl; discriminate.
  - apply Httl. repeat constructor; simpl; discriminate.
Defined.

(** X9.  The components a builder makes share the store of the base: the
    options given with a key never change the store, so [WithMaxMemory] on
    a component is ignored (the component is the one made without it).
    The component has the key it was asked for, and a [WithTTL] as its
    last option sets its time to live, which is otherwise that of the
    base. *)
Theorem builder_shares_store (t0 : Z) (opts : list (Z * Option)) (store : lru)
    (k : string) (opts1 opts2 : list (Z * Option)) (t n : Z) :
  snd (ComponentBuilder (fst (New t0 opts)) store k opts1) = store ∧
  comp_key (fst (ComponentBuilder (fst (New t0 opts)) store k opts1)) = k ∧
  ComponentBuilder (fst (New t0 opts)) store k
      (opts1 ++ (t, WithMaxMemory n) :: opts2)
    = ComponentBuilder (fst (New t0 opts)) store k (opts1 ++ opts2) ∧
  (∀ d, comp_ttl (fst (ComponentBuilder (fst (New t0 opts)) store k
                         (opts1 ++ [(t, WithTTL d)]))) = d) ∧
  comp_ttl (fst (ComponentBuilder (fst (New t0 opts)) store k []))
    = comp_ttl (fst (New t0 opts)).
Proof.
  split_and!.
  - unfold ComponentBuilder. by rewrite foldl_apply_Option_store.
  - unfold ComponentBuilder. by rewrite foldl_apply_Option_key.
  - unfold ComponentBuilder. rewrite !foldl_app. cbn [foldl]. f_equal.
    set (cs := foldl apply_Option _ opts1).
    assert (comp_initialized (fst cs) = true) as Hi
      by (unfold cs; by rewrite foldl_apply_Option_initialized).
    unfold apply_Option. cbn [snd]. by rewrite Hi.
  - intros d. unfold ComponentBuilder. by rewrite foldl_app.
  - done.
Qed.





(** X12.  Operations on one key leave the entries of the other keys
    resident, expired or not: on a reachable store, an entry under another
    key is still resident after a [get] and after a [Remove] of key [k],
    and after a [put] of [k] that leaves [mem] within the capacity. *)
Theorem other_keys_stay (m t0 : Z) (ops : list op) (c : lru) (e : entry)
    (k : string) :
  run (newLRU m t0) ops = Some c → e ∈ list_ c → key e ≠ k →
  (∀ g, e ∈ list_ (snd (get g k c))) ∧
  e ∈ list_ (Component_Remove k c) ∧
  (∀ now now' v ttl,
     mem (put_insert now k v ttl c) ≤ maxMem c →
     ∃ c', step c (OpPut now now' k v ttl) = Some c' ∧ e ∈ list_ c').
Proof.
  intros Hrun He Hne.
  destruct (reachable_inv' m t0 ops c Hrun) as ((Hwf & _ & Hoff) & _).
  assert (e ∈ filter (λ x, key x ≠ k) (list_ c)) as Hkept
    by (by apply list_elem_of_filter).
  split; [|split].
  - intros g. unfold get. destruct (disabled c); [done|]. cbn [cache].
    destruct (cache c !! k) as [x|] eqn:Hk; [|done].
    apply (wf_index c Hwf) in Hk as [Hx <-].
    destruct (g <? expiration x); cbn [snd list_].
    + by rewrite (list_MoveToFront_perm x (list_ c) Hx).
    + by rewrite _deleteKey_list by (by apply (wf_same_content c)).
  - unfold Component_Remove, deleteKey. by rewrite _deleteKey_list.
  - intros now now' v ttl Hfit. destruct (disabled c) eqn:Hd.
    { rewrite (Hoff eq_refl) in He. by apply elem_of_nil in He. }
    destruct (put_enabled (length (list_ c)) now now' k v ttl c Hwf (le_n _) Hd)
      as [Hfits _].
    eexists. split; [by apply Hfits|].
    rewrite put_insert_list by done. by right.
Qed.

Lemma other_keys_stay_witness :
  let c := after (newLRU 100 0) three_puts_ops in
  mkEntry "A" sample_value 1000 ∈ list_ (snd (get 5000 "B" c)) ∧
  mkEntry "A" sample_value 1000 ∈ list_ (Component_Remove "B" c).
Proof.
  intros c.
  destruct (other_keys_stay 100 0 three_puts_ops c (mkEntry "A" sample_value 1000) "B")
    as (Hget & Hremove & _).
  - vm_compute; reflexivity.
  - vm_compute. right. right. left.
  - discriminate.
  - split; [apply Hget|exact Hremove].
Defined.

(** ** Properties of the URL builder *)

Lemma string_app_assoc (a b c : string) : (a +:+ b) +:+ c = a +:+ (b +:+ c).
Proof.
  induction a as [|x a IH]; [reflexivity|].
  change (String x ((a +:+ b) +:+ c) = String x (a +:+ (b +:+ c))).
  by rewrite IH.
Qed.

Lemma string_app_nil_r (a : string) : a +:+ "" = a.
Proof.
  induction a as [|x a IH]; [reflexivity|].
  change (String x (a +:+ "") = String x a). by rewrite IH.
Qed.

(** The calls after scheme and host leave scheme and host alone. *)
Lemma do_calls_scheme_host calls : ∀ ub,
  urlbuilder.scheme (foldl urlbuilder.do_call ub calls) = urlbuilder.scheme ub ∧
  urlbuilder.host (foldl urlbuilder.do_call ub calls) = urlbuilder.host ub.
Proof.
  induction calls as [|cl calls IH]; intros ub; simpl; [done|].
  destruct (IH (urlbuilder.do_call ub cl)) as [-> ->]. by destruct cl.
Qed.

(** X13.  For the schemes [tel] and [mailto], [Build] returns
    [scheme:host] whatever path segments, query parameters and fragment
    the builder was given afterwards. *)
Theorem tel_mailto_ignore_the_rest `{urlbuilder.NetURL}
    (ub : urlbuilder.URLBuilder) (calls : list urlbuilder.call) :
  urlbuilder.scheme ub = "tel" ∨ urlbuilder.scheme ub = "mailto" →
  urlbuilder.Build (foldl urlbuilder.do_call ub calls)
    = urlbuilder.scheme ub +:+ ":" +:+ urlbuilder.host ub.
Proof.
  intros Hs. destruct (do_calls_scheme_host calls ub) as [Hscheme Hhost].
  unfold urlbuilder.Build. rewrite Hscheme, Hhost.
  rewrite decide_True by done.
  unfold urlbuilder.WriteString, urlbuilder.WriteByte.
  change ("" +:+ urlbuilder.scheme ub) with (urlbuilder.scheme ub).
  apply string_app_assoc.
Qed.

Lemma tel_mailto_ignore_the_rest_witness :
  @urlbuilder.Build sample_NetURL
    (foldl urlbuilder.do_call
       (urlbuilder.URLBuilder_Host "+1234567890" (urlbuilder.Scheme "tel"))
       [urlbuilder.CallPath "a"; urlbuilder.CallQuery "k" "v";
        urlbuilder.CallFragment "f"])
  = "tel:+1234567890".
Proof.
  apply (@tel_mailto_ignore_the_rest sample_NetURL
           (urlbuilder.URLBuilder_Host "+1234567890" (urlbuilder.Scheme "tel"))).
  left. reflexivity.
Defined.

(** X14.  With a scheme other than [tel] and [mailto] and nothing but
    scheme and host set, [Build] writes [scheme:] unless the scheme is
    empty, then [//host] unless the host is empty: [https://example.com],
    the protocol-relative [//example.com], and the empty string for a new
    builder. *)
Theorem scheme_and_host_format `{urlbuilder.NetURL} (s h : string) :
  s ≠ "tel" → s ≠ "mailto" →
  urlbuilder.Build (urlbuilder.URLBuilder_Host h (urlbuilder.Scheme s))
    = (if decide (s = "") then "" else s +:+ ":")
        +:+ (if decide (h = "") then "" else "//" +:+ h).
Proof.
  intros Htel Hmailto. unfold urlbuilder.Build. cbn.
  rewrite decide_False by (by intros [?|?]).
  unfold urlbuilder.WriteString, urlbuilder.WriteByte.
  change ("" +:+ s) with s.
  destruct (decide (s = "")), (decide (h = "")).
  - done.
  - done.
  - by rewrite string_app_nil_r.
  - apply string_app_assoc.
Qed.

Lemma scheme_and_host_format_witness :
  @urlbuilder.Build sample_NetURL
    (urlbuilder.URLBuilder_Host "example.com" (urlbuilder.Scheme "https"))
    = "https://example.com" ∧
  @urlbuilder.Build sample_NetURL
    (urlbuilder.URLBuilder_Host "example.com" (urlbuilder.Scheme ""))
    = "//example.com".
Proof.
  split.
  - apply (@scheme_and_host_format sample_NetURL "https" "example.com");
      discriminate.
  - apply (@scheme_and_host_format sample_NetURL "" "example.com");
      discriminate.
Defined.

(** X15.  Path segments.  The segment given to the function [Path] is
    written as it is, after a [/] when it does not start with one.  The
    method [Path] appends a segment: on a builder with a scheme other than
    [tel] and [mailto], no query and no fragment, the URL grows by a [/]
    (unless the segment starts with one) and the escaped segment. *)
Theorem path_segments `{urlbuilder.NetURL} :
  (∀ segment,
     urlbuilder.Build (urlbuilder.Path segment)
       = if String.prefix "/" segment then segment else "/" +:+ segment) ∧
  (∀ ub segment,
     urlbuilder.scheme ub ≠ "tel" → urlbuilder.scheme ub ≠ "mailto" →
     size (urlbuilder.query ub) = 0%nat → urlbuilder.fragment ub = "" →
     urlbuilder.Build (urlbuilder.URLBuilder_Path segment ub)
       = urlbuilder.Build ub
           +:+ (if String.prefix "/" segment then "" else "/")
           +:+ urlbuilder.PathEscape segment).
Proof.
  split.
  - intros segment. unfold urlbuilder.Build. cbn.
    unfold urlbuilder.write_segment. cbn.
    unfold urlbuilder.WriteString, urlbuilder.WriteByte.
    by destruct (String.prefix "/" segment).
  - intros ub segment Htel Hmailto Hq Hf.
    unfold urlbuilder.Build, urlbuilder.URLBuilder_Path.
    cbn [urlbuilder.scheme urlbuilder.host urlbuilder.path urlbuilder.query
      urlbuilder.fragment].
    destruct (decide (urlbuilder.scheme ub = "tel" ∨ urlbuilder.scheme ub = "mailto"))
      as [[?|?]|_]; [done..|].
    rewrite Hq, Hf, foldl_app. cbn [foldl Nat.ltb Nat.leb].
    destruct (decide ("" = "")) as [_|?]; [|done].
    unfold urlbuilder.write_segment at 1.
    cbn [urlbuilder.val_val urlbuilder.shouldEscape].
    unfold urlbuilder.WriteString, urlbuilder.WriteByte.
    destruct (String.prefix "/" segment); [done|].
    apply string_app_assoc.
Qed.

Lemma path_segments_witness :
  @urlbuilder.Build sample_NetURL
    (urlbuilder.URLBuilder_Path "a"
       (urlbuilder.URLBuilder_Host "example.com" (urlbuilder.Scheme "https")))
  = @urlbuilder.Build sample_NetURL
      (urlbuilder.URLBuilder_Host "example.com" (urlbuilder.Scheme "https"))
      +:+ "/" +:+ "a".
Proof.
  apply (proj2 (@path_segments sample_NetURL)
           (urlbuilder.URLBuilder_Host "example.com" (urlbuilder.Scheme "https"))
           "a"); [discriminate|discriminate|reflexivity|reflexivity].
Defined.

(** X16.  Query and fragment come last.  On a builder with a scheme other
    than [tel] and [mailto]: the first [Query] call (no query yet, no
    fragment) appends [?] and the encoded query; a [Fragment] call with a
    fragment that is not empty appends [#] and the escaped fragment to the
    URL of the builder without fragment, and the empty fragment appends
    nothing. *)
Theorem query_and_fragment_last `{urlbuilder.NetURL} (ub : urlbuilder.URLBuilder) :
  urlbuilder.scheme ub ≠ "tel" → urlbuilder.scheme ub ≠ "mailto" →
  (∀ k v,
     urlbuilder.query ub = ∅ → urlbuilder.fragment ub = "" →
     urlbuilder.Build (urlbuilder.URLBuilder_Query k v ub)
       = urlbuilder.Build ub +:+ "?" +:+ urlbuilder.Values_Encode {[k := [v]]}) ∧
  (∀ f, f ≠ "" →
     urlbuilder.Build (urlbuilder.URLBuilder_Fragment f ub)
       = urlbuilder.Build (urlbuilder.URLBuilder_Fragment "" ub)
           +:+ "#" +:+ urlbuilder.QueryEscape f).
Proof.
  intros Htel Hmailto. split.
  - intros k v Hq Hf.
    unfold urlbuilder.Build, urlbuilder.URLBuilder_Query.
    cbn [urlbuilder.scheme urlbuilder.host urlbuilder.path urlbuilder.query
      urlbuilder.fragment].
    destruct (decide (urlbuilder.scheme ub = "tel" ∨ urlbuilder.scheme ub = "mailto"))
      as [[?|?]|_]; [done..|].
    rewrite Hq, Hf. unfold urlbuilder.Values_Add.
    rewrite lookup_empty. cbn [default app].
    rewrite insert_empty, map_size_singleton, map_size_empty.
    cbn [Nat.ltb Nat.leb].
    destruct (decide ("" = "")) as [_|?]; [|done].
    unfold urlbuilder.WriteString, urlbuilder.WriteByte.
    apply string_app_assoc.
  - intros f Hne.
    unfold urlbuilder.Build, urlbuilder.URLBuilder_Fragment.
    cbn [urlbuilder.scheme urlbuilder.host urlbuilder.path urlbuilder.query
      urlbuilder.fragment].
    destruct (decide (urlbuilder.scheme ub = "tel" ∨ urlbuilder.scheme ub = "mailto"))
      as [[?|?]|_]; [done..|].
    destruct (decide (f = "")) as [?|_]; [done|].
    destruct (decide ("" = "")) as [_|?]; [|done].
    unfold urlbuilder.WriteString at 1. unfold urlbuilder.WriteByte at 1.
    apply string_app_assoc.
Qed.

Lemma query_and_fragment_last_witness :
  @urlbuilder.Build sample_NetURL
    (urlbuilder.URLBuilder_Fragment "top"
       (urlbuilder.URLBuilder_Host "example.com" (urlbuilder.Scheme "https")))
  = @urlbuilder.Build sample_NetURL
      (urlbuilder.URLBuilder_Fragment ""
         (urlbuilder.URLBuilder_Host "example.com" (urlbuilder.Scheme "https")))
      +:+ "#" +:+ "top".
Proof.
  apply (proj2 (@query_and_fragment_last sample_NetURL
                  (urlbuilder.URLBuilder_Host "example.com" (urlbuilder.Scheme "https"))
                  ltac:(discriminate) ltac:(discriminate)));
    discriminate.
Defined.
